(** * FF3 / FF3-1 format-preserving encryption (ff3/ff3.py)

    A shallow embedding of the Python module [ff3.py] and the properties
    of its numeral codec, validator, tweak expansion, round-block builder
    and Feistel engine.

    Python values are embedded as follows.
    - [int] is [Z] (arbitrary precision).
    - [str] is a list of Unicode code points ([N]); an alphabet of up to
      65536 distinct characters does not fit in [ascii].
    - [bytes] / [bytearray] is a list of [Z], each in [0, 256).
    - A call that may raise returns a [result]; the exception carries the
      raise site.
    - The AES block cipher of PyCryptodome is a parameter of the
      development: an arbitrary function from a key and a block to a
      block. *)

From Stdlib Require Import ZArith List String Ascii Lia Bool.
From Stdlib Require Import Reals Lra.
From stdpp Require Import base tactics option list numbers.

Local Open Scope Z_scope.

(** ** Python primitives *)

Abbreviation char := N (only parsing).
Abbreviation str := (list N) (only parsing).
Abbreviation bytes := (list Z) (only parsing).

(** A string literal as a Python [str]. *)
Definition py (s : string) : str :=
  map N_of_ascii (list_ascii_of_string s).

(** The reasons of the [ValueError]s raised by the module and by the
    built-ins it calls, one per raise site. *)
Inductive ValueError_reason : Type :=
| radix_below_2                              (* "radix must be at least 2." *)
| alphabet_below_2                           (* "alphabet must contain at least two characters." *)
| alphabet_radix_conflict (alen radix : Z)   (* "The alphabet has length ... which conflicts ..." *)
| radix_needs_custom_alphabet                (* "For radix >62 please specify a custom alphabet." *)
| duplicate_characters                       (* "The specified alphabet has duplicate characters." *)
| radix_exceeds_maximum (radix : Z)          (* "The current radix ... exceeds the maximum ..." *)
| key_length (klen : Z)                      (* "key length is ... but must be 128, 192, or 256 bits" *)
| message_length (n minLen maxLen : Z)       (* "message length ... is not within min ... and max ... bounds" *)
| tweak_length (tlen : Z)                    (* "tweak length ... invalid ..." *)
| non_hexadecimal                            (* bytes.fromhex: non-hexadecimal number found *)
| substring_not_found                        (* str.index: substring not found *)
| byte_out_of_range.                         (* bytearray store: byte must be in range(0, 256) *)

Inductive exception : Type :=
| ValueError (why : ValueError_reason)
| OverflowError            (* int.to_bytes: int too big to convert, or negative *)
| IndexError               (* sequence index out of range *)
| Diverges.                (* a [while] loop that has not finished within its fuel *)

Inductive result (A : Type) : Type :=
| Ok (a : A)
| Raise (e : exception).
Arguments Ok {A} a.
Arguments Raise {A} e.

#[global] Instance result_ret : MRet result := fun A a => Ok a.
#[global] Instance result_bind : MBind result := fun A B f m =>
  match m with
  | Ok a => f a
  | Raise e => Raise e
  end.

Definition raises {A} (r : result A) : Prop := exists e, r = Raise e.

(** [for x in l: s = body(s, x)], stopping at the first exception. *)
Fixpoint for_in {A S : Type} (l : list A) (s : S) (body : S -> A -> result S)
  : result S :=
  match l with
  | [] => Ok s
  | x :: l' => s' ← body s x; for_in l' s' body
  end.

Definition len {A} (l : list A) : Z := Z.of_nat (length l).

(** [range(n)]. *)
Definition range (n : Z) : list Z := seqZ 0 n.

(** [l[i]], with Python's negative indices. *)
Definition getitem {A} (l : list A) (i : Z) : result A :=
  let j := if i <? 0 then i + len l else i in
  if (0 <=? j) && (j <? len l) then
    match l !! Z.to_nat j with
    | Some x => Ok x
    | None => Raise IndexError
    end
  else Raise IndexError.

(** [b[i] = v] on a [bytearray], for [0 <= i]. *)
Definition setitem (b : bytes) (i : nat) (v : Z) : result bytes :=
  if negb (Z.of_nat i <? len b) then Raise IndexError
  else if negb ((0 <=? v) && (v <? 256)) then Raise (ValueError byte_out_of_range)
  else Ok (<[i := v]> b).

(** [alphabet.index(char)]: the first position of [char]. *)
Definition str_index (alphabet : str) (c : char) : result Z :=
  match list_find (fun c' => c' = c) alphabet with
  | Some (i, _) => Ok (Z.of_nat i)
  | None => Raise (ValueError substring_not_found)
  end.

(** [x.ljust(width, fillchar)]. *)
Definition ljust (x : str) (width : Z) (fillchar : char) : str :=
  x ++ replicate (Z.to_nat (width - len x)) fillchar.

(** [divmod(n, base)]: floor division, remainder with the sign of [base]. *)
Definition divmod (n base : Z) : Z * Z := (n / base, n mod base).

(** [n.to_bytes(length, "big")]. *)
Fixpoint to_bytes_little (length : nat) (n : Z) : bytes :=
  match length with
  | O => []
  | S k => n mod 256 :: to_bytes_little k (n / 256)
  end.

Definition to_bytes (n : Z) (length : nat) : result bytes :=
  if n <? 0 then Raise OverflowError
  else if 256 ^ Z.of_nat length <=? n then Raise OverflowError
  else Ok (reverse (to_bytes_little length n)).

(** [int.from_bytes(b, byteorder='big')]; also [int(b.hex(), 16)] for a
    non-empty [b], whose hexadecimal digits are the same numeral. *)
Definition from_bytes (b : bytes) : Z :=
  foldl (fun acc x => acc * 256 + x) 0 b.

(** [bytes.fromhex(s)]: two hexadecimal digits per byte, ASCII white
    space between bytes skipped. *)
Definition hex_digit (c : char) : option Z :=
  let z := Z.of_N c in
  if (48 <=? z) && (z <=? 57) then Some (z - 48)
  else if (97 <=? z) && (z <=? 102) then Some (z - 87)
  else if (65 <=? z) && (z <=? 70) then Some (z - 55)
  else None.

Definition is_space (c : char) : bool :=
  let z := Z.of_N c in
  (z =? 32) || ((9 <=? z) && (z <=? 13)).

Fixpoint fromhex (s : str) : result bytes :=
  match s with
  | [] => Ok []
  | c :: s' =>
      if is_space c then fromhex s'
      else match hex_digit c, s' with
           | Some top, d :: s'' =>
               match hex_digit d with
               | Some bot => rest ← fromhex s''; Ok (top * 16 + bot :: rest)
               | None => Raise (ValueError non_hexadecimal)
               end
           | _, _ => Raise (ValueError non_hexadecimal)
           end
  end.

(** [str(s)] of a [str] object is the object itself. *)
Definition str_of (s : str) : str := s.

(** ** Module constants *)

Definition DOMAIN_MIN : Z := 1000000.
Definition MAX_RADIX : Z := 2 ^ 16.
Definition NUM_ROUNDS : Z := 8.
Definition BLOCK_SIZE : Z := 16.
Definition TWEAK_LEN : Z := 8.
Definition TWEAK_LEN_NEW : Z := 7.
Definition HALF_TWEAK_LEN : Z := TWEAK_LEN / 2.
Definition DEFAULT_ALPHABET : str :=
  py "0123456789abcdefghijklmnopqrstuvwxyzABCDEFGHIJKLMNOPQRSTUVWXYZ".

Definition reverse_string {A} (txt : list A) : list A := reverse txt.

(** ** validate_radix_and_alphabet

    [radix] and [alphabet] are [None] or of the expected type; the two
    [isinstance] checks exclude everything else. *)
Definition validate_radix_and_alphabet (radix : option Z) (alphabet : option str)
  : result (Z * str) :=
  if (match radix with Some r => r <? 2 | None => false end)
  then Raise (ValueError radix_below_2)
  else if (match alphabet with Some a => len a <? 2 | None => false end)
  then Raise (ValueError alphabet_below_2)
  else
    _ ← match radix, alphabet with
        | Some r, Some a =>
            if negb (len a =? r)
            then Raise (ValueError (alphabet_radix_conflict (len a) r))
            else Ok tt
        | _, _ => Ok tt
        end;
    '(radix, alphabet) ←
      match alphabet with
      | None =>
          let radix := match radix with None => 10 | Some r => r end in
          if radix >? len DEFAULT_ALPHABET
          then Raise (ValueError radix_needs_custom_alphabet)
          else Ok (Some radix, take (Z.to_nat radix) DEFAULT_ALPHABET)
      | Some a => Ok (radix, a)
      end;
    if negb (len alphabet =? len (str_of alphabet))
    then Raise (ValueError duplicate_characters)
    else
      let radix := match radix with None => len alphabet | Some r => r end in
      if radix >? MAX_RADIX
      then Raise (ValueError (radix_exceeds_maximum radix))
      else Ok (radix, alphabet).

(** ** minlen_and_maxlen

    The source computes [math.ceil(math.log(DOMAIN_MIN, radix))] and
    [2 * math.floor(96 / math.log2(radix))] in binary floating point.
    The embedding reads both expressions over the real numbers:
    [ceil_log x base] is the least [m] with [x <= base ^ m], and
    [floor_quot_log2 e base] is the greatest [k] with [base ^ k <= 2 ^ e].
    [ceil_log_real] and [floor_quot_log2_real] below show that these are
    the ceiling and the floor of the real-valued expressions for every
    base from 2 on. *)
Fixpoint ceil_log_from (fuel : nat) (x base m : Z) : Z :=
  match fuel with
  | O => m
  | S f => if x <=? base ^ m then m else ceil_log_from f x base (m + 1)
  end.

Definition ceil_log (x base : Z) : Z :=
  ceil_log_from (Z.to_nat (Z.log2_up x)) x base 0.

Fixpoint floor_quot_log2_from (k : nat) (e base : Z) : Z :=
  match k with
  | O => 0
  | S k' => if base ^ Z.of_nat k <=? 2 ^ e then Z.of_nat k
            else floor_quot_log2_from k' e base
  end.

Definition floor_quot_log2 (e base : Z) : Z :=
  floor_quot_log2_from (Z.to_nat e) e base.

Definition minlen_and_maxlen (radix : Z) : Z * Z :=
  let minLen := ceil_log DOMAIN_MIN radix in
  let maxLen := 2 * floor_quot_log2 96 radix in
  (minLen, maxLen).

(** ** The numeral codec *)

(** The [while n >= base] loop of [encode_int_r]; the state is [(n, x)].
    With [base >= 2] it runs at most [log2 n] times. *)
Fixpoint encode_loop (fuel : nat) (base : Z) (alphabet : str) (n : Z) (x : str)
  : result (Z * str) :=
  if n >=? base then
    match fuel with
    | O => Raise Diverges
    | S fuel' =>
        let '(n, b) := divmod n base in
        c ← getitem alphabet b;
        encode_loop fuel' base alphabet n (x ++ [c])
    end
  else Ok (n, x).

Definition encode_int_r (n : Z) (base : Z) (length : Z) (alphabet : option str)
  : result str :=
  '(base, alphabet) ← validate_radix_and_alphabet (Some base) alphabet;
  let x := [] in
  '(n, x) ← encode_loop (Z.to_nat (Z.log2 n)) base alphabet n x;
  c ← getitem alphabet n;
  let x := x ++ [c] in
  if len x <? length then
    fill ← getitem alphabet 0;
    Ok (ljust x length fill)
  else Ok x.

Definition decode_int (string alphabet : str) : result Z :=
  let strlen := len string in
  let base := len alphabet in
  let num := 0 in
  let idx := 0 in
  '(num, idx) ← for_in (reverse_string string) (num, idx)
    (fun '(num, idx) char =>
       let power := strlen - (idx + 1) in
       d ← str_index alphabet char;
       let num := num + d * base ^ power in
       let idx := idx + 1 in
       Ok (num, idx));
  Ok num.


(** ** class FF3Cipher *)

Module FF3Cipher.

(** The instance attributes. [aesCipher] holds the key handed to
    [AES.new(..., AES.MODE_ECB)], that is, the reversed key bytes. *)
Record t : Type := Build {
  tweak : str;
  radix : Z;
  alphabet : str;
  minLen : Z;
  maxLen : Z;
  aesCipher : bytes
}.

Definition __init__ (key tweak : str) (radix : option Z) (alphabet : option str)
  : result t :=
  '(radix, alphabet) ← validate_radix_and_alphabet radix alphabet;
  keybytes ← fromhex key;
  let '(minLen, maxLen) := minlen_and_maxlen radix in
  let klen := len keybytes in
  if negb ((klen =? 16) || (klen =? 24) || (klen =? 32))
  then Raise (ValueError (key_length klen))
  else Ok (Build tweak radix alphabet minLen maxLen (reverse_string keybytes)).

Definition calculateP (i : Z) (alphabet : str) (W : bytes) (B : str)
  : result bytes :=
  let P := replicate (Z.to_nat BLOCK_SIZE) 0 in
  w ← getitem W 0; P ← setitem P 0 w;
  w ← getitem W 1; P ← setitem P 1 w;
  w ← getitem W 2; P ← setitem P 2 w;
  w ← getitem W 3; P ← setitem P 3 (Z.lxor w i);
  n ← decode_int B alphabet;
  BBytes ← to_bytes n 12;
  let P := take (Z.to_nat (BLOCK_SIZE - len BBytes)) P ++ BBytes in
  Ok P.

(** [math.ceil(n / 2)]; the true division is exact for a length. *)
Definition ceil_half (n : Z) : Z := (n + 1) / 2.

(** The tweak split, the same statements in [encrypt_with_tweak] and
    in [decrypt_with_tweak]: returns [(Tl, Tr)]. *)
Definition tweak_halves (tweakBytes : bytes) : result (bytes * bytes) :=
  if len tweakBytes =? TWEAK_LEN then
    let Tl := take (Z.to_nat HALF_TWEAK_LEN) tweakBytes in
    let Tr := drop (Z.to_nat HALF_TWEAK_LEN) tweakBytes in
    Ok (Tl, Tr)
  else if len tweakBytes =? TWEAK_LEN_NEW then
    let Tl := take 4 tweakBytes in
    b ← getitem Tl 3;
    Tl ← setitem Tl 3 (Z.land b 0xF0);
    Tr ← to_bytes (Z.shiftl (from_bytes (drop 4 tweakBytes)) 4) 4;
    b ← getitem tweakBytes 6;
    Tr ← setitem Tr 3 (Z.land (Z.shiftl b 4) 0xF0);
    Ok (Tl, Tr)
  else Raise (ValueError (tweak_length (len tweakBytes))).

Section Engine.
(** [AES.new(key, AES.MODE_ECB).encrypt(block)]. *)
Variable AES_ECB_encrypt : bytes -> bytes -> bytes.

(** One pass of the encryption loop body on the state [(A, B)]. *)
Definition encrypt_round (self : t) (u v : Z) (Tl Tr : bytes) (modU modV : Z)
    (AB : str * str) (i : Z) : result (str * str) :=
  let '(A, B) := AB in
  let '(m, W) := if i mod 2 =? 0 then (u, Tr) else (v, Tl) in
  P ← calculateP i self.(alphabet) W B;
  let revP := reverse_string P in
  let S := AES_ECB_encrypt self.(aesCipher) revP in
  let S := reverse_string S in
  let y := from_bytes S in
  c ← decode_int A self.(alphabet);
  let c := c + y in
  let c := if i mod 2 =? 0 then c mod modU else c mod modV in
  C ← encode_int_r c self.(radix) m (Some self.(alphabet));
  let A := B in
  let B := C in
  Ok (A, B).

Definition encrypt_with_tweak (self : t) (plaintext tweak : str) : result str :=
  tweakBytes ← fromhex tweak;
  let n := len plaintext in
  if (n <? self.(minLen)) || (n >? self.(maxLen))
  then Raise (ValueError (message_length n self.(minLen) self.(maxLen)))
  else if negb ((len tweakBytes =? TWEAK_LEN) || (len tweakBytes =? TWEAK_LEN_NEW))
  then Raise (ValueError (tweak_length (len tweakBytes)))
  else
    let u := ceil_half n in
    let v := n - u in
    let A := take (Z.to_nat u) plaintext in
    let B := drop (Z.to_nat u) plaintext in
    '(Tl, Tr) ← tweak_halves tweakBytes;
    let modU := self.(radix) ^ u in
    let modV := self.(radix) ^ v in
    '(A, B) ← for_in (range NUM_ROUNDS) (A, B)
                (encrypt_round self u v Tl Tr modU modV);
    Ok (A ++ B).

Definition encrypt (self : t) (plaintext : str) : result str :=
  encrypt_with_tweak self plaintext self.(tweak).

(** One pass of the decryption loop body on the state [(A, B)]. *)
Definition decrypt_round (self : t) (u v : Z) (Tl Tr : bytes) (modU modV : Z)
    (AB : str * str) (i : Z) : result (str * str) :=
  let '(A, B) := AB in
  let '(m, W) := if i mod 2 =? 0 then (u, Tr) else (v, Tl) in
  P ← calculateP i self.(alphabet) W A;
  let revP := reverse_string P in
  let S := AES_ECB_encrypt self.(aesCipher) revP in
  let S := reverse_string S in
  let y := from_bytes S in
  c ← decode_int B self.(alphabet);
  let c := c - y in
  let c := if i mod 2 =? 0 then c mod modU else c mod modV in
  C ← encode_int_r c self.(radix) m (Some self.(alphabet));
  let B := A in
  let A := C in
  Ok (A, B).

Definition decrypt_with_tweak (self : t) (ciphertext tweak : str) : result str :=
  tweakBytes ← fromhex tweak;
  let n := len ciphertext in
  if (n <? self.(minLen)) || (n >? self.(maxLen))
  then Raise (ValueError (message_length n self.(minLen) self.(maxLen)))
  else if negb ((len tweakBytes =? TWEAK_LEN) || (len tweakBytes =? TWEAK_LEN_NEW))
  then Raise (ValueError (tweak_length (len tweakBytes)))
  else
    let u := ceil_half n in
    let v := n - u in
    let A := take (Z.to_nat u) ciphertext in
    let B := drop (Z.to_nat u) ciphertext in
    '(Tl, Tr) ← tweak_halves tweakBytes;
    let modU := self.(radix) ^ u in
    let modV := self.(radix) ^ v in
    '(A, B) ← for_in (reverse (range NUM_ROUNDS)) (A, B)
                (decrypt_round self u v Tl Tr modU modV);
    Ok (A ++ B).

Definition decrypt (self : t) (ciphertext : str) : result str :=
  decrypt_with_tweak self ciphertext self.(tweak).
End Engine.

End FF3Cipher.

(** ** Specification-side notions *)

(** The numeral value of a character: its first position in the alphabet. *)
Definition digit (alphabet : str) (c : char) : Z :=
  match str_index alphabet c with
  | Ok i => i
  | Raise _ => 0
  end.

(** The character of a numeral value. *)
Definition nth_char (alphabet : str) (d : Z) : char :=
  default 0%N (alphabet !! Z.to_nat d).

(** The sum over the positions [k] of [digit s[k] * |alphabet| ^ power k]. *)
Definition positional (alphabet s : str) (power : nat -> Z) : Z :=
  foldr Z.add 0 (imap (fun k c => digit alphabet c * len alphabet ^ power k) s).

(** Most significant digit first: position [k] weighs [|alphabet|^(|s|-1-k)]. *)
Definition numeral_msf (alphabet s : str) : Z :=
  positional alphabet s (fun k => len s - 1 - Z.of_nat k).

(** Least significant digit first: position [k] weighs [|alphabet|^k]. *)
Definition numeral_lsf (alphabet s : str) : Z :=
  positional alphabet s (fun k => Z.of_nat k).

(** The [m] low digits of [n] in base [base], least significant first. *)
Fixpoint digits (base : Z) (m : nat) (n : Z) : list Z :=
  match m with
  | O => []
  | S k => n mod base :: digits base k (n / base)
  end.

(** The value of a digit list, least significant first. *)
Definition undigits (base : Z) (ds : list Z) : Z :=
  foldr (fun d acc => d + base * acc) 0 ds.

Definition is_bytes (b : bytes) : Prop := Forall (fun x => 0 <= x < 256) b.

(** The alphabet invariant of the data model: [radix] pairwise distinct
    characters, with [2 <= radix <= 65536]. *)
Definition valid_alphabet (radix : Z) (alphabet : str) : Prop :=
  2 <= radix <= MAX_RADIX /\ len alphabet = radix /\ NoDup alphabet.

(** A string of [m] characters of the alphabet. *)
Definition over (alphabet : str) (m : Z) (s : str) : Prop :=
  Forall (fun c => c ∈ alphabet) s /\ len s = m.

(** The shape of the Feistel state [(A, B)] before encryption round [i],
    which is also its shape after decryption round [i]. *)
Definition halves (alphabet : str) (u v : Z) (i : Z) (AB : str * str) : Prop :=
  if i mod 2 =? 0
  then over alphabet u AB.1 /\ over alphabet v AB.2
  else over alphabet v AB.1 /\ over alphabet u AB.2.

(** The length bounds as the formulas of the source read over the
    reals: [ceil(log(DOMAIN_MIN, radix))] and
    [2 * floor(96 / log2(radix))]. *)
Definition minLen_formula (radix : Z) : Z :=
  Zceil (ln (IZR DOMAIN_MIN) / ln (IZR radix)).
Definition maxLen_formula (radix : Z) : Z :=
  2 * Zfloor (96 / (ln (IZR radix) / ln 2)).

(** The right half-tweak as FF3-1 packs it, [t[32..55] || t[28..31] || 0000]:
    bytes 4, 5, 6 of the tweak, then the low nibble of byte 3 in the high
    nibble of the last byte. *)
Definition Tr_packed (tweakBytes : bytes) : result bytes :=
  t3 ← getitem tweakBytes 3;
  t4 ← getitem tweakBytes 4;
  t5 ← getitem tweakBytes 5;
  t6 ← getitem tweakBytes 6;
  Ok [t4; t5; t6; Z.shiftl (Z.land t3 0x0F) 4].

(** The instance [self] with another tweak attribute. *)
Definition with_tweak (self : FF3Cipher.t) (tweak : str) : FF3Cipher.t :=
  FF3Cipher.Build tweak self.(FF3Cipher.radix) self.(FF3Cipher.alphabet)
    self.(FF3Cipher.minLen) self.(FF3Cipher.maxLen) self.(FF3Cipher.aesCipher).

(** A stand-in block cipher for the examples: any function will do. *)
Definition sample_cipher (key block : bytes) : bytes :=
  map (fun x => (7 * x + from_bytes key + 13 * from_bytes block) mod 256) block.

Definition sample_key : str := py "EF4359D8D580AA4F7F036D6F04FC6A94".
Definition sample_tweak : str := py "D8E7920AFA330A73".
Definition sample_tweak56 : str := py "D8E7920AFA330A".
Definition sample_plaintext : str := py "890121234567890000".

(** [FF3Cipher(sample_key, sample_tweak)]: radix 10, the decimal digits. *)
Definition sample_instance : FF3Cipher.t :=
  Eval vm_compute in
    match FF3Cipher.__init__ sample_key sample_tweak None None with
    | Ok self => self
    | Raise _ => FF3Cipher.Build [] 0 [] 0 0 []
    end.

(** [FF3Cipher(sample_key, sample_tweak56, 36)]: digits and lower-case
    letters, a 56-bit tweak. *)
Definition sample_instance36 : FF3Cipher.t :=
  Eval vm_compute in
    match FF3Cipher.__init__ sample_key sample_tweak56 (Some 36) None with
    | Ok self => self
    | Raise _ => FF3Cipher.Build [] 0 [] 0 0 []
    end.

(** * Properties *)

(** ** The exception monad and loops *)

Lemma bind_Ok {A B} (m : result A) (f : A -> result B) (b : B) :
  m ≫= f = Ok b -> exists a, m = Ok a /\ f a = Ok b.
Proof. destruct m as [a|e]; simpl; [eauto | discriminate]. Qed.

Lemma bind_ret {A B} (a : A) (f : A -> result B) : Ok a ≫= f = f a.
Proof. reflexivity. Qed.

Lemma bind_raise {A B} (e : exception) (f : A -> result B) :
  Raise e ≫= f = Raise e.
Proof. reflexivity. Qed.

Lemma for_in_cons {A S} (x : A) (l : list A) (s : S) body :
  for_in (x :: l) s body = body s x ≫= fun s' => for_in l s' body.
Proof. reflexivity. Qed.

Lemma for_in_app {A S} (l1 l2 : list A) (s : S) body :
  for_in (l1 ++ l2) s body = for_in l1 s body ≫= fun s' => for_in l2 s' body.
Proof.
  revert s. induction l1 as [|x l1 IH]; intros s; simpl; [done|].
  destruct (body s x) as [s'|e]; simpl; [apply IH | done].
Qed.

Lemma len_nonneg {A} (l : list A) : 0 <= len l.
Proof. unfold len. lia. Qed.

Lemma len_app {A} (l1 l2 : list A) : len (l1 ++ l2) = len l1 + len l2.
Proof. unfold len. rewrite length_app. lia. Qed.

Lemma len_cons {A} (x : A) (l : list A) : len (x :: l) = 1 + len l.
Proof. unfold len. simpl. lia. Qed.

Lemma len_map {A B} (f : A -> B) (l : list A) : len (map f l) = len l.
Proof. unfold len. by rewrite length_map. Qed.

Lemma len_reverse {A} (l : list A) : len (reverse l) = len l.
Proof. unfold len. by rewrite length_reverse. Qed.

(** ** Indexing *)

Lemma getitem_Ok {A} (l : list A) (i : Z) (x : A) :
  0 <= i -> l !! Z.to_nat i = Some x -> getitem l i = Ok x.
Proof.
  intros Hi Hx. unfold getitem.
  pose proof (lookup_lt_Some _ _ _ Hx) as Hlt.
  destruct (Z.ltb_spec i 0); [lia|].
  destruct (Z.leb_spec 0 i); [|lia].
  destruct (Z.ltb_spec i (len l)) as [_|Hge]; [|unfold len in Hge; lia].
  simpl. by rewrite Hx.
Qed.

Lemma getitem_nth_char (alphabet : str) (d : Z) :
  0 <= d < len alphabet -> getitem alphabet d = Ok (nth_char alphabet d).
Proof.
  intros Hd. unfold nth_char.
  destruct (lookup_lt_is_Some_2 alphabet (Z.to_nat d)) as [c Hc].
  { unfold len in Hd. lia. }
  rewrite Hc. simpl. apply getitem_Ok; [lia | done].
Qed.

Lemma nth_char_elem (alphabet : str) (d : Z) :
  0 <= d < len alphabet -> nth_char alphabet d ∈ alphabet.
Proof.
  intros Hd. unfold nth_char.
  destruct (lookup_lt_is_Some_2 alphabet (Z.to_nat d)) as [c Hc].
  { unfold len in Hd. lia. }
  rewrite Hc. simpl. eapply list_elem_of_lookup_2; eauto.
Qed.

Lemma str_index_elem (alphabet : str) (c : char) :
  c ∈ alphabet ->
  exists i, str_index alphabet c = Ok i /\ 0 <= i < len alphabet
            /\ nth_char alphabet i = c.
Proof.
  intros Hc. unfold str_index.
  destruct (list_find (fun c' => c' = c) alphabet) as [[i x]|] eqn:E.
  - apply list_find_Some in E as (Hl & -> & _).
    exists (Z.of_nat i). split; [done|].
    apply lookup_lt_Some in Hl as Hlt. split; [unfold len; lia|].
    unfold nth_char. rewrite Nat2Z.id, Hl. done.
  - apply list_find_None in E. rewrite Forall_forall in E.
    apply list_elem_of_In in Hc. exact (False_ind _ (E c Hc eq_refl)).
Qed.

Lemma str_index_not_elem (alphabet : str) (c : char) :
  c ∉ alphabet -> str_index alphabet c = Raise (ValueError substring_not_found).
Proof.
  intros Hc. unfold str_index.
  destruct (list_find (fun c' => c' = c) alphabet) as [[i x]|] eqn:E; [|done].
  apply list_find_Some in E as (Hl & -> & _).
  exfalso. apply Hc. eapply list_elem_of_lookup_2; eauto.
Qed.

Lemma str_index_nth_char (alphabet : str) (d : Z) :
  NoDup alphabet -> 0 <= d < len alphabet ->
  str_index alphabet (nth_char alphabet d) = Ok d.
Proof.
  intros Hnd Hd.
  destruct (str_index_elem alphabet (nth_char alphabet d)) as (i & Hi & Hr & Hn).
  { by apply nth_char_elem. }
  rewrite Hi. f_equal.
  unfold nth_char in Hn.
  destruct (lookup_lt_is_Some_2 alphabet (Z.to_nat d)) as [c Hc].
  { unfold len in Hd. lia. }
  destruct (lookup_lt_is_Some_2 alphabet (Z.to_nat i)) as [c' Hc'].
  { unfold len in Hr. lia. }
  rewrite Hc, Hc' in Hn. simpl in Hn. subst c'.
  pose proof (NoDup_lookup _ _ _ _ Hnd Hc Hc'). lia.
Qed.

Lemma digit_elem (alphabet : str) (c : char) :
  c ∈ alphabet ->
  str_index alphabet c = Ok (digit alphabet c)
  /\ 0 <= digit alphabet c < len alphabet
  /\ nth_char alphabet (digit alphabet c) = c.
Proof.
  intros Hc. destruct (str_index_elem _ _ Hc) as (i & Hi & Hr & Hn).
  unfold digit. rewrite Hi. done.
Qed.

Lemma digit_nth_char (alphabet : str) (d : Z) :
  NoDup alphabet -> 0 <= d < len alphabet ->
  digit alphabet (nth_char alphabet d) = d.
Proof. intros Hnd Hd. unfold digit. by rewrite str_index_nth_char. Qed.

(** ** Digit lists *)

Lemma undigits_cons (r d : Z) (ds : list Z) :
  undigits r (d :: ds) = d + r * undigits r ds.
Proof. reflexivity. Qed.

Lemma undigits_app (r : Z) (ds1 ds2 : list Z) :
  undigits r (ds1 ++ ds2) = undigits r ds1 + r ^ len ds1 * undigits r ds2.
Proof.
  induction ds1 as [|d ds1 IH].
  - simpl. unfold len. simpl. lia.
  - rewrite <- app_comm_cons, !undigits_cons, IH, len_cons.
    rewrite Z.pow_add_r by (pose proof (len_nonneg ds1); lia). lia.
Qed.

Lemma undigits_bound (r : Z) (ds : list Z) :
  0 < r -> Forall (fun d => 0 <= d < r) ds -> 0 <= undigits r ds < r ^ len ds.
Proof.
  intros Hr. induction 1 as [|d ds Hd _ IH].
  - unfold len. simpl. lia.
  - rewrite undigits_cons, len_cons.
    rewrite Z.pow_add_r by (pose proof (len_nonneg ds); lia). nia.
Qed.

Lemma length_digits (r : Z) (m : nat) (n : Z) : length (digits r m n) = m.
Proof. revert n. induction m as [|m IH]; intros n; simpl; [done | by rewrite IH]. Qed.

Lemma digits_range (r : Z) (m : nat) (n : Z) :
  0 < r -> Forall (fun d => 0 <= d < r) (digits r m n).
Proof.
  intros Hr. revert n. induction m as [|m IH]; intros n; simpl; constructor.
  - apply Z.mod_pos_bound. lia.
  - apply IH.
Qed.

Lemma undigits_digits (r : Z) (m : nat) (n : Z) :
  0 < r -> undigits r (digits r m n) = n mod r ^ Z.of_nat m.
Proof.
  intros Hr. revert n. induction m as [|m IH]; intros n.
  - simpl. by rewrite Z.mod_1_r.
  - cbn [digits]. rewrite undigits_cons, IH.
    rewrite Nat2Z.inj_succ, Z.pow_succ_r by lia.
    rewrite Z.rem_mul_r by lia. done.
Qed.

Lemma digits_undigits (r : Z) (ds : list Z) :
  0 < r -> Forall (fun d => 0 <= d < r) ds ->
  digits r (length ds) (undigits r ds) = ds.
Proof.
  intros Hr. induction 1 as [|d ds Hd _ IH]; [done|].
  cbn [length digits]. rewrite undigits_cons.
  replace (d + r * undigits r ds) with (d + undigits r ds * r) by lia.
  rewrite Z_mod_plus_full, Z.mod_small by lia.
  rewrite Z_div_plus_full by lia.
  rewrite Z.div_small by lia. rewrite Z.add_0_l, IH. done.
Qed.

Lemma digits_zero (r : Z) (m : nat) : 0 < r -> digits r m 0 = replicate m 0.
Proof.
  intros Hr. induction m as [|m IH]; [done|].
  simpl. rewrite Z.mod_0_l, Z.div_0_l by lia. by rewrite IH.
Qed.

(** ** decode_int *)

Lemma positional_shift (alphabet s : str) (j : nat) :
  foldr Z.add 0
    (imap (fun k c => digit alphabet c * len alphabet ^ Z.of_nat (k + j)) s)
  = len alphabet ^ Z.of_nat j
    * undigits (len alphabet) (map (digit alphabet) s).
Proof.
  revert j. induction s as [|c s IH]; intros j.
  - simpl. lia.
  - rewrite imap_cons. simpl foldr at 1. simpl map. rewrite undigits_cons.
    rewrite (imap_ext _ (fun k c => digit alphabet c
                            * len alphabet ^ Z.of_nat (k + S j))).
    2:{ intros i x _. simpl. do 2 f_equal. lia. }
    rewrite IH. simpl Nat.add.
    rewrite Nat2Z.inj_succ, Z.pow_succ_r by lia. lia.
Qed.

Lemma numeral_lsf_undigits (alphabet s : str) :
  numeral_lsf alphabet s = undigits (len alphabet) (map (digit alphabet) s).
Proof.
  unfold numeral_lsf, positional.
  rewrite (imap_ext _ (fun k c => digit alphabet c
                          * len alphabet ^ Z.of_nat (k + 0))).
  2:{ intros i x _. simpl. do 2 f_equal. lia. }
  rewrite positional_shift. simpl. lia.
Qed.

Lemma decode_loop (alphabet : str) (strlen : Z) (l : str) (num idx : Z) :
  Forall (fun c => c ∈ alphabet) l -> 0 <= idx -> idx + len l <= strlen ->
  for_in l (num, idx)
    (fun '(num, idx) char =>
       let power := strlen - (idx + 1) in
       d ← str_index alphabet char;
       let num := num + d * len alphabet ^ power in
       let idx := idx + 1 in
       Ok (num, idx))
  = Ok (num + len alphabet ^ (strlen - idx - len l)
              * undigits (len alphabet) (map (digit alphabet) (reverse l)),
        idx + len l).
Proof.
  intros Hl. revert num idx.
  induction Hl as [|c l Hc _ IH]; intros num idx Hidx Hlen.
  - simpl. unfold len. simpl. do 2 f_equal; lia.
  - rewrite len_cons in *. pose proof (len_nonneg l).
    rewrite for_in_cons. cbv beta iota zeta.
    destruct (digit_elem _ _ Hc) as (-> & _ & _). rewrite !bind_ret.
    rewrite IH by lia.
    rewrite reverse_cons, map_app, undigits_app. simpl map.
    rewrite undigits_cons. simpl undigits.
    rewrite len_map, len_reverse.
    f_equal. f_equal; [|lia].
    replace (strlen - (idx + 1) - len l) with (strlen - idx - (1 + len l)) by lia.
    replace (strlen - (idx + 1)) with ((strlen - idx - (1 + len l)) + len l) by lia.
    rewrite Z.pow_add_r by lia. ring.
Qed.

Lemma decode_loop_raises (alphabet : str) (strlen : Z) (l : str) (st : Z * Z) :
  Exists (fun c => c ∉ alphabet) l ->
  for_in l st
    (fun '(num, idx) char =>
       let power := strlen - (idx + 1) in
       d ← str_index alphabet char;
       let num := num + d * len alphabet ^ power in
       let idx := idx + 1 in
       Ok (num, idx))
  = Raise (ValueError substring_not_found).
Proof.
  revert st. induction l as [|c l IH]; intros [num idx] Hex.
  - by apply Exists_nil in Hex.
  - rewrite for_in_cons. cbv beta iota zeta.
    destruct (decide (c ∈ alphabet)) as [Hc|Hc].
    + destruct (digit_elem _ _ Hc) as (-> & _ & _). rewrite !bind_ret.
      apply IH. apply Exists_cons in Hex as [?|?]; done.
    + rewrite (str_index_not_elem _ _ Hc). done.
Qed.

Lemma decode_int_lsf (s alphabet : str) :
  Forall (fun c => c ∈ alphabet) s ->
  decode_int s alphabet = Ok (undigits (len alphabet) (map (digit alphabet) s)).
Proof.
  intros Hs. unfold decode_int, reverse_string.
  rewrite decode_loop.
  - cbn. rewrite reverse_involutive. f_equal.
    unfold len. rewrite length_reverse.
    replace (Z.of_nat (length s) - 0 - Z.of_nat (length s)) with 0 by lia.
    lia.
  - by apply Forall_reverse.
  - lia.
  - unfold len. rewrite length_reverse. lia.
Qed.

Lemma decode_int_raises (s alphabet : str) :
  ~ Forall (fun c => c ∈ alphabet) s ->
  decode_int s alphabet = Raise (ValueError substring_not_found).
Proof.
  intros Hs. unfold decode_int, reverse_string.
  rewrite decode_loop_raises; [done|].
  apply (not_Forall_Exists (fun c => c ∈ alphabet)).
  by rewrite Forall_reverse.
Qed.

Lemma map_digit_range (s alphabet : str) :
  Forall (fun c => c ∈ alphabet) s ->
  Forall (fun d => 0 <= d < len alphabet) (map (digit alphabet) s).
Proof.
  induction 1 as [|c s Hc _ IH]; simpl; constructor; [|done].
  by destruct (digit_elem _ _ Hc) as (_ & ? & _).
Qed.

Lemma map_nth_char_digit (s alphabet : str) :
  Forall (fun c => c ∈ alphabet) s ->
  map (nth_char alphabet) (map (digit alphabet) s) = s.
Proof.
  induction 1 as [|c s Hc _ IH]; simpl; [done|].
  destruct (digit_elem _ _ Hc) as (_ & _ & ->). by rewrite IH.
Qed.

Lemma map_digit_nth_char (ds : list Z) (alphabet : str) :
  NoDup alphabet -> Forall (fun d => 0 <= d < len alphabet) ds ->
  map (digit alphabet) (map (nth_char alphabet) ds) = ds.
Proof.
  intros Hnd. induction 1 as [|d ds Hd _ IH]; simpl; [done|].
  by rewrite digit_nth_char, IH.
Qed.

Lemma map_nth_char_elem (ds : list Z) (alphabet : str) :
  Forall (fun d => 0 <= d < len alphabet) ds ->
  Forall (fun c => c ∈ alphabet) (map (nth_char alphabet) ds).
Proof.
  induction 1 as [|d ds Hd _ IH]; simpl; constructor; [|done].
  by apply nth_char_elem.
Qed.

Lemma decode_int_bound (s alphabet : str) (n : Z) :
  0 < len alphabet -> decode_int s alphabet = Ok n ->
  Forall (fun c => c ∈ alphabet) s /\ 0 <= n < len alphabet ^ len s.
Proof.
  intros Ha Hd.
  destruct (decide (Forall (fun c => c ∈ alphabet) s)) as [Hs|Hs].
  - split; [done|]. rewrite decode_int_lsf in Hd by done.
    injection Hd as <-.
    replace (len s) with (len (map (digit alphabet) s))
      by (unfold len; by rewrite length_map).
    apply undigits_bound; [done|]. by apply map_digit_range.
  - rewrite decode_int_raises in Hd by done. discriminate.
Qed.

(** ** validate_radix_and_alphabet *)

Ltac zbool :=
  repeat match goal with
  | H : negb _ = true |- _ => apply negb_true_iff in H
  | H : negb _ = false |- _ => apply negb_false_iff in H
  | H : (_ && _)%bool = true |- _ => apply andb_true_iff in H as [? ?]
  | H : (_ || _)%bool = false |- _ => apply orb_false_iff in H as [? ?]
  | H : (_ <? _) = true |- _ => apply Z.ltb_lt in H
  | H : (_ <? _) = false |- _ => apply Z.ltb_ge in H
  | H : (_ <=? _) = true |- _ => apply Z.leb_le in H
  | H : (_ <=? _) = false |- _ => apply Z.leb_gt in H
  | H : (_ >? _) = true |- _ => rewrite Z.gtb_ltb in H
  | H : (_ >? _) = false |- _ => rewrite Z.gtb_ltb in H
  | H : (_ >=? _) = true |- _ => rewrite Z.geb_leb in H
  | H : (_ >=? _) = false |- _ => rewrite Z.geb_leb in H
  | H : (_ =? _) = true |- _ => apply Z.eqb_eq in H
  | H : (_ =? _) = false |- _ => apply Z.eqb_neq in H
  end.

Ltac case_if :=
  match goal with
  | |- context [if ?b then _ else _] => destruct b eqn:?
  | H : context [if ?b then _ else _] |- _ => destruct b eqn:?
  end.

Lemma len_DEFAULT_ALPHABET : len DEFAULT_ALPHABET = 62.
Proof. reflexivity. Qed.

Lemma len_take {A} (l : list A) (n : Z) :
  0 <= n <= len l -> len (take (Z.to_nat n) l) = n.
Proof. unfold len. rewrite length_take. lia. Qed.

Lemma len_drop {A} (l : list A) (n : Z) :
  0 <= n <= len l -> len (drop (Z.to_nat n) l) = len l - n.
Proof. unfold len. rewrite length_drop. lia. Qed.

Lemma validate_Ok (radix : option Z) (alphabet : option str) (r : Z) (a : str) :
  validate_radix_and_alphabet radix alphabet = Ok (r, a) ->
  2 <= r <= MAX_RADIX /\ len a = r.
Proof.
  unfold validate_radix_and_alphabet, str_of, MAX_RADIX.
  destruct radix as [r0|], alphabet as [a0|]; cbv zeta;
    repeat (case_if; try discriminate); rewrite ?bind_ret;
    repeat (case_if; try discriminate);
    intros [= <- <-]; zbool;
    rewrite ?len_DEFAULT_ALPHABET in *; rewrite ?len_take;
    rewrite ?len_DEFAULT_ALPHABET; try lia.
  split; [lia | reflexivity].
Qed.

Lemma validate_valid (r : Z) (a : str) :
  2 <= r <= MAX_RADIX -> len a = r ->
  validate_radix_and_alphabet (Some r) (Some a) = Ok (r, a).
Proof.
  unfold validate_radix_and_alphabet, str_of, MAX_RADIX. intros Hr Ha.
  repeat (case_if; zbool; try lia); rewrite ?bind_ret;
    repeat (case_if; zbool; try lia); try done.
Qed.

(** The duplicate test compares the alphabet with itself: it never fires. *)
Lemma validate_never_duplicate (radix : option Z) (alphabet : option str) :
  validate_radix_and_alphabet radix alphabet
  <> Raise (ValueError duplicate_characters).
Proof.
  unfold validate_radix_and_alphabet, str_of.
  destruct radix as [r0|], alphabet as [a0|]; cbv zeta;
    repeat (case_if; try discriminate); rewrite ?bind_ret;
    repeat (case_if; try discriminate); zbool; try lia.
Qed.

(** ** encode_int_r *)

Lemma log2_quot (n r : Z) : 2 <= r -> r <= n -> Z.log2 (n / r) <= Z.log2 n - 1.
Proof.
  intros Hr Hn.
  assert (n / r <= n / 2) by (apply Z.div_le_compat_l; lia).
  assert (Z.log2 (n / 2) = Z.log2 n - 1) as <-.
  { change 2 with (2 ^ 1) at 1. rewrite <- Z.shiftr_div_pow2 by lia.
    rewrite Z.log2_shiftr by lia.
    assert (1 <= Z.log2 n) by (apply (Z.log2_le_pow2 n 1); lia). lia. }
  by apply Z.log2_le_mono.
Qed.

Lemma map_replicate {A B} (f : A -> B) (k : nat) (x : A) :
  map f (replicate k x) = replicate k (f x).
Proof. induction k as [|k IH]; simpl; [done | by rewrite IH]. Qed.

(** The loop writes the low digits of [n] and stops at its leading digit;
    the fuel is never exhausted. *)
Lemma encode_loop_digits (r : Z) (alphabet : str) (m : nat) :
  2 <= r -> len alphabet = r ->
  forall (fuel : nat) (n : Z) (x : str),
    0 <= n < r ^ Z.of_nat (S m) -> Z.log2 n <= Z.of_nat fuel ->
    exists (j : nat) (n' : Z),
      (j <= m)%nat
      /\ encode_loop fuel r alphabet n x
         = Ok (n', x ++ map (nth_char alphabet) (digits r j n))
      /\ 0 <= n' < r
      /\ digits r (S m) n = digits r j n ++ n' :: replicate (m - j) 0.
Proof.
  intros Hr Ha. induction m as [|m IH]; intros fuel n x Hn Hfuel.
  - exists O, n. change (Z.of_nat 1) with 1 in Hn. rewrite Z.pow_1_r in Hn.
    split; [lia|]. split; [|split; [lia|]].
    + destruct fuel; simpl; rewrite Z.geb_leb;
        destruct (Z.leb_spec r n); try lia; by rewrite app_nil_r.
    + simpl. by rewrite Z.mod_small by lia.
  - destruct (Z.lt_ge_cases n r) as [Hlt|Hge].
    + exists O, n. split; [lia|]. split; [|split; [lia|]].
      * destruct fuel; simpl; rewrite Z.geb_leb;
          destruct (Z.leb_spec r n); try lia; by rewrite app_nil_r.
      * cbn [digits app]. rewrite Z.mod_small, Z.div_small by lia.
        rewrite digits_zero by lia. by rewrite Nat.sub_0_r.
    + assert (1 <= Z.log2 n) by (apply (Z.log2_le_pow2 n 1); lia).
      destruct fuel as [|fuel]; [lia|].
      cbn [encode_loop]. rewrite Z.geb_leb.
      destruct (Z.leb_spec r n); [|lia]. unfold divmod.
      rewrite getitem_nth_char by (rewrite Ha; apply Z.mod_pos_bound; lia).
      rewrite bind_ret.
      destruct (IH fuel (n / r) (x ++ [nth_char alphabet (n mod r)]))
        as (j & n' & Hj & Hloop & Hn' & Hd).
      { split; [apply Z.div_pos; lia|].
        apply Z.div_lt_upper_bound; [lia|].
        rewrite (Nat2Z.inj_succ (S m)), Z.pow_succ_r in Hn by lia. lia. }
      { pose proof (log2_quot n r). lia. }
      exists (S j), n'. split; [lia|]. split; [|split; [done|]].
      * rewrite Hloop. cbn [digits map]. by rewrite <- app_assoc.
      * cbn [digits] in Hd |- *. rewrite Hd. done.
Qed.

Lemma encode_int_r_digits (n r m : Z) (alphabet : str) :
  2 <= r <= MAX_RADIX -> len alphabet = r -> 1 <= m -> 0 <= n < r ^ m ->
  encode_int_r n r m (Some alphabet)
  = Ok (map (nth_char alphabet) (digits r (Z.to_nat m) n)).
Proof.
  intros Hr Ha Hm Hn. unfold encode_int_r.
  rewrite validate_valid by done. rewrite bind_ret. cbv zeta.
  destruct (encode_loop_digits r alphabet (Z.to_nat (m - 1)) ltac:(lia) Ha
              (Z.to_nat (Z.log2 n)) n [])
    as (j & n' & Hj & -> & Hn' & Hd).
  { replace (Z.of_nat (S (Z.to_nat (m - 1)))) with m by lia. done. }
  { pose proof (Z.log2_nonneg n). lia. }
  rewrite bind_ret. rewrite (getitem_nth_char alphabet n') by lia.
  rewrite bind_ret.
  replace (Z.to_nat m) with (S (Z.to_nat (m - 1))) by lia. rewrite Hd.
  rewrite app_nil_l.
  assert (len (map (nth_char alphabet) (digits r j n) ++ [nth_char alphabet n'])
          = Z.of_nat j + 1) as Hlen.
  { rewrite len_app, len_map. unfold len. rewrite length_digits. simpl. lia. }
  rewrite Hlen. destruct (Z.ltb_spec (Z.of_nat j + 1) m).
  - rewrite getitem_nth_char by lia. rewrite bind_ret. unfold ljust.
    rewrite Hlen, map_app. cbn [map]. rewrite map_replicate.
    rewrite <- app_assoc. cbn [app]. do 4 f_equal. lia.
  - replace (Z.to_nat (m - 1) - j)%nat with O by lia.
    rewrite map_app. done.
Qed.

(** With [length <= 0] the result is not truncated: a single character. *)
Lemma encode_int_r_zero (r m : Z) (alphabet : str) :
  2 <= r <= MAX_RADIX -> len alphabet = r -> m <= 0 ->
  encode_int_r 0 r m (Some alphabet) = Ok [nth_char alphabet 0].
Proof.
  intros Hr Ha Hm. unfold encode_int_r.
  rewrite validate_valid by done. rewrite bind_ret. cbv zeta.
  change (Z.to_nat (Z.log2 0)) with O. unfold encode_loop.
  rewrite Z.geb_leb.
  destruct (Z.leb_spec r 0); [lia|]. rewrite bind_ret.
  rewrite getitem_nth_char by lia. rewrite bind_ret.
  destruct (Z.ltb_spec (len ([] ++ [nth_char alphabet 0])) m) as [Hlt|]; [|done].
  unfold len in Hlt. simpl in Hlt. lia.
Qed.

Lemma decode_encode (n r m : Z) (alphabet : str) :
  valid_alphabet r alphabet -> 0 <= n < r ^ m ->
  encode_int_r n r m (Some alphabet) ≫= (fun s => decode_int s alphabet) = Ok n.
Proof.
  intros (Hr & Ha & Hnd) Hn.
  destruct (Z.le_gt_cases 1 m) as [Hm|Hm].
  - rewrite encode_int_r_digits by done. rewrite bind_ret.
    rewrite decode_int_lsf.
    + rewrite map_digit_nth_char, Ha; [|done|].
      * rewrite undigits_digits by lia. rewrite Z2Nat.id by lia.
        by rewrite Z.mod_small.
      * rewrite Ha. apply digits_range. lia.
    + apply map_nth_char_elem. rewrite Ha. apply digits_range. lia.
  - assert (n = 0) as ->.
    { destruct (Z.eq_dec m 0) as [->|]; [lia|].
      rewrite Z.pow_neg_r in Hn by lia. lia. }
    rewrite encode_int_r_zero by (done || lia). rewrite bind_ret.
    rewrite decode_int_lsf.
    + cbn [map]. rewrite digit_nth_char by (done || lia).
      rewrite undigits_cons. unfold undigits. cbn [foldr]. f_equal. lia.
    + repeat constructor. apply nth_char_elem. lia.
Qed.

Lemma encode_decode (s alphabet : str) (r : Z) :
  2 <= r <= MAX_RADIX -> len alphabet = r ->
  Forall (fun c => c ∈ alphabet) s -> 1 <= len s ->
  encode_int_r (undigits r (map (digit alphabet) s)) r (len s) (Some alphabet)
  = Ok s.
Proof.
  intros Hr Ha Hs Hlen.
  pose proof (map_digit_range _ _ Hs) as Hrange. rewrite Ha in Hrange.
  rewrite encode_int_r_digits; try done.
  - unfold len. rewrite Nat2Z.id.
    rewrite <- (length_map (digit alphabet) s).
    rewrite digits_undigits by (done || lia).
    by rewrite map_nth_char_digit.
  - rewrite <- (len_map (digit alphabet) s). apply undigits_bound; [lia|done].
Qed.

(** ** minlen_and_maxlen *)

Lemma le_pow2_log2_up (x : Z) : 1 <= x -> x <= 2 ^ Z.log2_up x.
Proof.
  intros Hx. destruct (Z.eq_dec x 1) as [->|]; [done|].
  apply Z.log2_up_spec. lia.
Qed.

Lemma ceil_log_from_spec (x base : Z) (fuel : nat) (m0 : Z) :
  2 <= base -> 1 <= x -> 0 <= m0 ->
  Z.log2_up x <= m0 + Z.of_nat fuel ->
  (forall k, 0 <= k < m0 -> base ^ k < x) ->
  let m := ceil_log_from fuel x base m0 in
  m0 <= m /\ x <= base ^ m /\ (forall k, 0 <= k < m -> base ^ k < x).
Proof.
  intros Hb Hx. revert m0. induction fuel as [|fuel IH]; intros m0 Hm0 Hf Hlow.
  - simpl. split; [lia|]. split; [|done].
    transitivity (2 ^ Z.log2_up x); [by apply le_pow2_log2_up|].
    transitivity (2 ^ m0).
    + apply Z.pow_le_mono_r; lia.
    + apply Z.pow_le_mono_l; lia.
  - simpl. destruct (Z.leb_spec x (base ^ m0)) as [Hle|Hgt].
    + split; [lia|]. done.
    + destruct (IH (m0 + 1)) as (? & ? & ?); try lia.
      * intros k Hk. destruct (Z.eq_dec k m0) as [->|]; [done|].
        apply Hlow. lia.
      * split; [lia|]. done.
Qed.

Lemma ceil_log_spec (x base : Z) :
  2 <= base -> 1 <= x ->
  0 <= ceil_log x base
  /\ x <= base ^ ceil_log x base
  /\ (forall k, 0 <= k < ceil_log x base -> base ^ k < x).
Proof.
  intros Hb Hx. unfold ceil_log.
  apply (ceil_log_from_spec x base); lia.
Qed.

Lemma floor_quot_log2_from_spec (e base : Z) (k0 : nat) :
  2 <= base -> 0 <= e ->
  (forall j, Z.of_nat k0 < j -> 2 ^ e < base ^ j) ->
  let k := floor_quot_log2_from k0 e base in
  0 <= k <= Z.of_nat k0 /\ base ^ k <= 2 ^ e /\ 2 ^ e < base ^ (k + 1).
Proof.
  intros Hb He. induction k0 as [|k0 IH]; intros Hhigh.
  - simpl. split; [lia|]. split.
    + pose proof (Z.pow_pos_nonneg 2 e). lia.
    + apply Hhigh. lia.
  - cbn [floor_quot_log2_from].
    destruct (Z.leb_spec (base ^ Z.of_nat (S k0)) (2 ^ e)) as [Hle|Hgt].
    + split; [lia|]. split; [done|]. apply Hhigh. lia.
    + destruct IH as (? & ? & ?).
      * intros j Hj. destruct (Z.eq_dec j (Z.of_nat (S k0))) as [->|]; [done|].
        apply Hhigh. lia.
      * split; [lia|]. done.
Qed.

Lemma floor_quot_log2_spec (e base : Z) :
  2 <= base -> 0 <= e ->
  0 <= floor_quot_log2 e base <= e
  /\ base ^ floor_quot_log2 e base <= 2 ^ e
  /\ 2 ^ e < base ^ (floor_quot_log2 e base + 1).
Proof.
  intros Hb He. unfold floor_quot_log2.
  destruct (floor_quot_log2_from_spec e base (Z.to_nat e) Hb He) as (? & ? & ?).
  - intros j Hj. apply Z.lt_le_trans with (2 ^ j).
    + apply Z.pow_lt_mono_r; lia.
    + apply Z.pow_le_mono_l; lia.
  - split; [lia|]. done.
Qed.

(** What the engine needs of the bounds of a valid radix. *)
Lemma minlen_and_maxlen_bounds (radix minLen maxLen : Z) :
  2 <= radix <= MAX_RADIX ->
  minlen_and_maxlen radix = (minLen, maxLen) ->
  2 <= minLen /\ exists k, maxLen = 2 * k /\ 0 <= k /\ radix ^ k <= 2 ^ 96.
Proof.
  unfold MAX_RADIX, minlen_and_maxlen, DOMAIN_MIN. intros Hr [= <- <-].
  destruct (ceil_log_spec 1000000 radix) as (Hm0 & Hm & _); try lia.
  destruct (floor_quot_log2_spec 96 radix) as (Hk0 & Hk & _); try lia.
  split.
  - destruct (Z.le_gt_cases 2 (ceil_log 1000000 radix)) as [|Hlt]; [done|].
    assert (radix ^ ceil_log 1000000 radix <= radix ^ 1)
      by (apply Z.pow_le_mono_r; lia).
    rewrite Z.pow_1_r in *. change (2 ^ 16) with 65536 in Hr. lia.
  - exists (floor_quot_log2 96 radix). split; [done|]. split; [lia|done].
Qed.

(** *** The integer searches are the real-valued formulas *)

Lemma ln_IZR_pow (b m : Z) :
  0 < b -> 0 <= m -> ln (IZR (b ^ m)) = (IZR m * ln (IZR b))%R.
Proof.
  intros Hb Hm. rewrite <- (Z2Nat.id m) at 1 by done.
  rewrite <- pow_IZR, ln_pow by (apply IZR_lt; lia).
  by rewrite INR_IZR_INZ, Z2Nat.id.
Qed.

Lemma ln_IZR_le (x y : Z) : 0 < x -> x <= y -> (ln (IZR x) <= ln (IZR y))%R.
Proof.
  intros Hx Hxy. destruct (Z.eq_dec x y) as [->|]; [apply Rle_refl|].
  apply Rlt_le, ln_increasing; apply IZR_lt; lia.
Qed.

Lemma ln_IZR_lt (x y : Z) : 0 < x -> x < y -> (ln (IZR x) < ln (IZR y))%R.
Proof. intros Hx Hxy. apply ln_increasing; apply IZR_lt; lia. Qed.

Lemma ln_IZR_pos (b : Z) : 2 <= b -> (0 < ln (IZR b))%R.
Proof. intros Hb. rewrite <- ln_1. apply (ln_IZR_lt 1 b); lia. Qed.

Lemma ceil_log_real (x base : Z) :
  2 <= base -> 1 <= x ->
  Zceil (ln (IZR x) / ln (IZR base)) = ceil_log x base.
Proof.
  intros Hb Hx.
  destruct (ceil_log_spec x base Hb Hx) as (Hm0 & Hup & Hlow).
  pose proof (ln_IZR_pos base Hb) as HL.
  set (m := ceil_log x base) in *.
  set (q := (ln (IZR x) / ln (IZR base))%R).
  assert (q * ln (IZR base) = ln (IZR x))%R as Hq
    by (unfold q; field; lra).
  apply Zceil_eq. split.
  - destruct (Z.eq_dec m 0) as [Hz|Hnz].
    + rewrite Hz. pose proof (ln_IZR_le 1 x) as H1. rewrite ln_1 in H1.
      specialize (H1 ltac:(lia) Hx). nra.
    + pose proof (ln_IZR_lt (base ^ (m - 1)) x) as H1.
      rewrite ln_IZR_pow in H1 by lia. rewrite minus_IZR in H1.
      assert (0 < base ^ (m - 1)) by (apply Z.pow_pos_nonneg; lia).
      specialize (H1 ltac:(lia) ltac:(apply Hlow; lia)). nra.
  - pose proof (ln_IZR_le x (base ^ m)) as H1.
    rewrite ln_IZR_pow in H1 by lia.
    specialize (H1 ltac:(lia) Hup). nra.
Qed.

Lemma floor_quot_log2_real (e base : Z) :
  2 <= base -> 0 <= e ->
  Zfloor (IZR e / (ln (IZR base) / ln 2)) = floor_quot_log2 e base.
Proof.
  intros Hb He.
  destruct (floor_quot_log2_spec e base Hb He) as (Hk0 & Hdown & Hup).
  pose proof (ln_IZR_pos base Hb) as HL.
  pose proof (ln_IZR_pos 2 ltac:(lia)) as H2.
  set (k := floor_quot_log2 e base) in *.
  set (q := (IZR e / (ln (IZR base) / ln 2))%R).
  assert (q * ln (IZR base) = IZR e * ln 2)%R as Hq
    by (unfold q; field; lra).
  assert (0 < 2 ^ e) by (apply Z.pow_pos_nonneg; lia).
  assert (0 < base ^ k) by (apply Z.pow_pos_nonneg; lia).
  apply Zfloor_eq. split.
  - pose proof (ln_IZR_le (base ^ k) (2 ^ e)) as H1.
    rewrite !ln_IZR_pow in H1 by lia.
    specialize (H1 ltac:(lia) Hdown). nra.
  - pose proof (ln_IZR_lt (2 ^ e) (base ^ (k + 1))) as H1.
    rewrite !ln_IZR_pow in H1 by lia. rewrite plus_IZR in H1.
    specialize (H1 ltac:(lia) Hup). nra.
Qed.

(** For every radix from 2 on, the embedded bounds are the formulas of
    the source read over the reals. *)
Lemma minlen_and_maxlen_formula (radix : Z) :
  2 <= radix ->
  minlen_and_maxlen radix = (minLen_formula radix, maxLen_formula radix).
Proof.
  intros Hr. unfold minlen_and_maxlen, minLen_formula, maxLen_formula.
  rewrite ceil_log_real by (done || unfold DOMAIN_MIN; lia).
  by rewrite (floor_quot_log2_real 96 radix) by lia.
Qed.

(** ** Bytes *)

Lemma lt_pow2_of_log2 (a n : Z) : 0 <= a -> 0 < n -> Z.log2 a < n -> a < 2 ^ n.
Proof.
  intros Ha Hn Hl. destruct (Z.eq_dec a 0) as [->|].
  - apply Z.pow_pos_nonneg; lia.
  - apply Z.log2_lt_pow2; lia.
Qed.

Lemma log2_byte (a : Z) : 0 <= a < 256 -> Z.log2 a < 8.
Proof.
  intros Ha. destruct (Z.eq_dec a 0) as [->|]; [done|].
  apply Z.log2_lt_pow2; [lia|]. change (2 ^ 8) with 256. lia.
Qed.

Lemma land_byte_r (a b : Z) : 0 <= a -> 0 <= b < 256 -> 0 <= Z.land a b < 256.
Proof.
  intros Ha Hb. split; [apply Z.land_nonneg; lia|].
  change 256 with (2 ^ 8). apply lt_pow2_of_log2; [apply Z.land_nonneg; lia|lia|].
  pose proof (Z.log2_land a b). pose proof (log2_byte b). lia.
Qed.

Lemma lxor_byte (a i : Z) : 0 <= a < 256 -> 0 <= i < 8 -> 0 <= Z.lxor a i < 256.
Proof.
  intros Ha Hi. split; [apply Z.lxor_nonneg; lia|].
  change 256 with (2 ^ 8). apply lt_pow2_of_log2; [apply Z.lxor_nonneg; lia|lia|].
  pose proof (Z.log2_lxor a i). pose proof (log2_byte a).
  pose proof (log2_byte i). lia.
Qed.

Lemma is_bytes_cons (x : Z) (b : bytes) :
  is_bytes (x :: b) <-> 0 <= x < 256 /\ is_bytes b.
Proof.
  split.
  - intros H. inversion H; subst. done.
  - intros [? ?]. by constructor.
Qed.

Lemma setitem_Ok (b : bytes) (i : nat) (v : Z) :
  (i < length b)%nat -> 0 <= v < 256 -> setitem b i v = Ok (<[i := v]> b).
Proof.
  intros Hi Hv. unfold setitem, len.
  destruct (Z.ltb_spec (Z.of_nat i) (Z.of_nat (length b))); [|lia].
  destruct (Z.leb_spec 0 v); [|lia]. destruct (Z.ltb_spec v 256); [|lia]. done.
Qed.

Lemma to_bytes_little_digits (k : nat) (n : Z) :
  to_bytes_little k n = digits 256 k n.
Proof. revert n. induction k as [|k IH]; intros n; simpl; [done | by rewrite IH]. Qed.

Lemma to_bytes_Ok (n : Z) (k : nat) :
  0 <= n < 256 ^ Z.of_nat k ->
  exists b, to_bytes n k = Ok b /\ is_bytes b /\ length b = k.
Proof.
  intros Hn. unfold to_bytes.
  destruct (Z.ltb_spec n 0); [lia|].
  destruct (Z.leb_spec (256 ^ Z.of_nat k) n); [lia|].
  eexists. split; [done|]. rewrite to_bytes_little_digits. split.
  - apply Forall_reverse, digits_range. lia.
  - by rewrite length_reverse, length_digits.
Qed.

Lemma hex_digit_range (c : char) (d : Z) : hex_digit c = Some d -> 0 <= d < 16.
Proof.
  unfold hex_digit. cbv zeta.
  repeat (case_if; zbool); intros [= <-]; lia.
Qed.

Lemma fromhex_is_bytes_upto (k : nat) (s : str) (b : bytes) :
  (length s <= k)%nat -> fromhex s = Ok b -> is_bytes b.
Proof.
  revert s b. induction k as [|k IH]; intros s b Hk Hf.
  - destruct s; [|simpl in Hk; lia]. injection Hf as <-. constructor.
  - destruct s as [|c s]; [injection Hf as <-; constructor|].
    cbn [fromhex] in Hf. destruct (is_space c).
    + apply (IH s); [simpl in Hk; lia | done].
    + destruct (hex_digit c) as [top|] eqn:Ht; [|discriminate].
      destruct s as [|d s]; [discriminate|].
      destruct (hex_digit d) as [bot|] eqn:Hb; [|discriminate].
      apply bind_Ok in Hf as (rest & Hrest & [= <-]).
      apply hex_digit_range in Ht, Hb. constructor; [lia|].
      apply (IH s); [simpl in Hk; lia | done].
Qed.

Lemma fromhex_is_bytes (s : str) (b : bytes) : fromhex s = Ok b -> is_bytes b.
Proof. by apply (fromhex_is_bytes_upto (length s)). Qed.

(** ** The round block *)

Lemma calculateP_eq (i : Z) (alphabet : str) (w0 w1 w2 w3 : Z) (B : str) :
  is_bytes [w0; w1; w2; w3] -> 0 <= i < 8 ->
  FF3Cipher.calculateP i alphabet [w0; w1; w2; w3] B
  = n ← decode_int B alphabet;
    BBytes ← to_bytes n 12;
    Ok (take (Z.to_nat (BLOCK_SIZE - len BBytes))
          [w0; w1; w2; Z.lxor w3 i; 0; 0; 0; 0; 0; 0; 0; 0; 0; 0; 0; 0]
        ++ BBytes).
Proof.
  intros HW Hi. unfold FF3Cipher.calculateP.
  apply is_bytes_cons in HW as [H0 HW]. apply is_bytes_cons in HW as [H1 HW].
  apply is_bytes_cons in HW as [H2 HW]. apply is_bytes_cons in HW as [H3 _].
  change (replicate (Z.to_nat BLOCK_SIZE) 0)
    with [0; 0; 0; 0; 0; 0; 0; 0; 0; 0; 0; 0; 0; 0; 0; 0].
  cbv zeta.
  change (getitem [w0; w1; w2; w3] 0) with (Ok w0). rewrite bind_ret.
  rewrite setitem_Ok by (simpl; lia). rewrite bind_ret.
  change (getitem [w0; w1; w2; w3] 1) with (Ok w1). rewrite bind_ret.
  rewrite setitem_Ok by (simpl; lia). rewrite bind_ret.
  change (getitem [w0; w1; w2; w3] 2) with (Ok w2). rewrite bind_ret.
  rewrite setitem_Ok by (simpl; lia). rewrite bind_ret.
  change (getitem [w0; w1; w2; w3] 3) with (Ok w3). rewrite bind_ret.
  rewrite setitem_Ok by (simpl; lia || by apply lxor_byte). rewrite bind_ret.
  reflexivity.
Qed.

Lemma length_4 {A} (l : list A) :
  length l = 4%nat -> exists a b c d, l = [a; b; c; d].
Proof.
  destruct l as [|a [|b [|c [|d [|e l]]]]]; try discriminate. eauto.
Qed.

Lemma calculateP_Ok (i : Z) (alphabet : str) (W : bytes) (B : str) :
  is_bytes W -> length W = 4%nat -> 0 <= i < 8 -> 0 < len alphabet ->
  Forall (fun c => c ∈ alphabet) B -> len alphabet ^ len B <= 2 ^ 96 ->
  exists P, FF3Cipher.calculateP i alphabet W B = Ok P.
Proof.
  intros HW Hlen Hi Ha HB H96.
  destruct (length_4 W Hlen) as (w0 & w1 & w2 & w3 & ->).
  rewrite calculateP_eq by done.
  rewrite (decode_int_lsf B alphabet HB), bind_ret.
  destruct (to_bytes_Ok (undigits (len alphabet) (map (digit alphabet) B)) 12)
    as (bb & -> & _).
  { pose proof (undigits_bound (len alphabet) (map (digit alphabet) B) Ha
                  (map_digit_range _ _ HB)) as Hb.
    rewrite len_map in Hb. change (256 ^ Z.of_nat 12) with (2 ^ 96). lia. }
  rewrite bind_ret. eauto.
Qed.

Lemma calculateP_raises (i : Z) (alphabet : str) (W : bytes) (B : str) :
  is_bytes W -> length W = 4%nat -> 0 <= i < 8 ->
  ~ Forall (fun c => c ∈ alphabet) B ->
  FF3Cipher.calculateP i alphabet W B = Raise (ValueError substring_not_found).
Proof.
  intros HW Hlen Hi HB.
  destruct (length_4 W Hlen) as (w0 & w1 & w2 & w3 & ->).
  rewrite calculateP_eq by done.
  by rewrite (decode_int_raises B alphabet HB).
Qed.

(** ** The tweak halves *)

Lemma length_7 {A} (l : list A) :
  length l = 7%nat -> exists a b c d e f g, l = [a; b; c; d; e; f; g].
Proof.
  destruct l as [|a [|b [|c [|d [|e [|f [|g [|h l]]]]]]]]; try discriminate.
  eauto 10.
Qed.

Lemma tweak_halves_Ok (tweakBytes : bytes) :
  is_bytes tweakBytes ->
  length tweakBytes = 7%nat \/ length tweakBytes = 8%nat ->
  exists Tl Tr,
    FF3Cipher.tweak_halves tweakBytes = Ok (Tl, Tr)
    /\ is_bytes Tl /\ length Tl = 4%nat /\ is_bytes Tr /\ length Tr = 4%nat.
Proof.
  intros Hb [H7|H8]; unfold FF3Cipher.tweak_halves, len.
  - rewrite H7. change (Z.of_nat 7 =? TWEAK_LEN) with false.
    change (Z.of_nat 7 =? TWEAK_LEN_NEW) with true. cbv iota.
    destruct (length_7 _ H7) as (t0 & t1 & t2 & t3 & t4 & t5 & t6 & ->).
    apply is_bytes_cons in Hb as [H0 Hb]. apply is_bytes_cons in Hb as [H1 Hb].
    apply is_bytes_cons in Hb as [H2 Hb]. apply is_bytes_cons in Hb as [H3 Hb].
    apply is_bytes_cons in Hb as [H4 Hb]. apply is_bytes_cons in Hb as [H5 Hb].
    apply is_bytes_cons in Hb as [H6 _].
    cbn [take drop]. cbv zeta.
    change (getitem [t0; t1; t2; t3] 3) with (Ok t3). rewrite bind_ret.
    rewrite setitem_Ok by (simpl; lia || apply land_byte_r; lia).
    rewrite bind_ret.
    destruct (to_bytes_Ok (Z.shiftl (from_bytes [t4; t5; t6]) 4) 4)
      as (Tr & -> & HTr & HlTr).
    { rewrite Z.shiftl_mul_pow2 by lia. unfold from_bytes. cbn [foldl].
      change (256 ^ Z.of_nat 4) with 4294967296. change (2 ^ 4) with 16. lia. }
    rewrite bind_ret.
    change (getitem [t0; t1; t2; t3; t4; t5; t6] 6) with (Ok t6).
    rewrite bind_ret.
    assert (0 <= Z.land (Z.shiftl t6 4) 240 < 256) as Hlast.
    { apply land_byte_r; [|lia]. apply Z.shiftl_nonneg. lia. }
    rewrite setitem_Ok by (done || lia). rewrite bind_ret.
    eexists _, _. split; [done|]. split; [|split; [done|split]].
    + cbn [insert list_insert]. repeat constructor; try lia.
      all: apply land_byte_r; lia.
    + apply Forall_insert; done.
    + by rewrite length_insert.
  - rewrite H8. change (Z.of_nat 8 =? TWEAK_LEN) with true. cbv iota zeta.
    change (Z.to_nat HALF_TWEAK_LEN) with 4%nat.
    eexists _, _. split; [done|].
    split; [by apply Forall_take|]. split; [rewrite length_take; lia|].
    split; [by apply Forall_drop|]. rewrite length_drop; lia.
Qed.

(** ** The Feistel rounds *)

Lemma parity_succ (i : Z) : ((i + 1) mod 2 =? 0) = negb (i mod 2 =? 0).
Proof.
  pose proof (Z.div_mod i 2 ltac:(lia)).
  pose proof (Z.div_mod (i + 1) 2 ltac:(lia)).
  pose proof (Z.mod_pos_bound i 2 ltac:(lia)).
  pose proof (Z.mod_pos_bound (i + 1) 2 ltac:(lia)).
  destruct (Z.eqb_spec (i mod 2) 0) as [Hi|Hi],
           (Z.eqb_spec ((i + 1) mod 2) 0) as [Hs|Hs]; cbn [negb]; try done.
  - exfalso. lia.
  - exfalso. lia.
Qed.

Section Rounds.
Variable AES_ECB_encrypt : bytes -> bytes -> bytes.
Variable self : FF3Cipher.t.
Variables u v : Z.
Variables Tl Tr : bytes.

Hypothesis radix_range : 2 <= self.(FF3Cipher.radix) <= MAX_RADIX.
Hypothesis alphabet_len : len self.(FF3Cipher.alphabet) = self.(FF3Cipher.radix).
Hypothesis split_point : 1 <= v <= u.
Hypothesis block_fits : self.(FF3Cipher.radix) ^ u <= 2 ^ 96.
Hypothesis Tl_bytes : is_bytes Tl /\ length Tl = 4%nat.
Hypothesis Tr_bytes : is_bytes Tr /\ length Tr = 4%nat.

Let r := self.(FF3Cipher.radix).
Let alphabet := self.(FF3Cipher.alphabet).
Let enc := FF3Cipher.encrypt_round AES_ECB_encrypt self u v Tl Tr (r ^ u) (r ^ v).
Let dec := FF3Cipher.decrypt_round AES_ECB_encrypt self u v Tl Tr (r ^ u) (r ^ v).

Lemma over_fits (m : Z) (s : str) :
  over alphabet m s -> 1 <= m <= u -> len alphabet ^ len s <= 2 ^ 96.
Proof.
  intros [_ ->] Hm. unfold alphabet. rewrite alphabet_len.
  transitivity (self.(FF3Cipher.radix) ^ u); [|done].
  apply Z.pow_le_mono_r; lia.
Qed.

Lemma over_value (m : Z) (s : str) :
  over alphabet m s ->
  decode_int s alphabet = Ok (undigits r (map (digit alphabet) s))
  /\ 0 <= undigits r (map (digit alphabet) s) < r ^ m.
Proof.
  intros [Hs <-]. split.
  - rewrite decode_int_lsf by done. unfold alphabet, r. by rewrite alphabet_len.
  - rewrite <- (len_map (digit alphabet) s). apply undigits_bound.
    + unfold r. lia.
    + unfold r, alphabet. rewrite <- alphabet_len. by apply map_digit_range.
Qed.

Lemma encode_over (c m : Z) :
  1 <= m -> 0 <= c < r ^ m ->
  exists C, encode_int_r c r m (Some alphabet) = Ok C /\ over alphabet m C
            /\ C = map (nth_char alphabet) (digits r (Z.to_nat m) c).
Proof.
  intros Hm Hc. eexists. split; [|split; [|reflexivity]].
  - by apply encode_int_r_digits.
  - split.
    + apply map_nth_char_elem. unfold alphabet. rewrite alphabet_len.
      apply digits_range. lia.
    + rewrite len_map. unfold len. rewrite length_digits. lia.
Qed.

(** The side [m], the half-tweak [W] and the modulus of round [i]. *)
Lemma round_side (i : Z) (A B : str) :
  halves alphabet u v i (A, B) ->
  exists m W,
    (if i mod 2 =? 0 then (u, Tr) else (v, Tl)) = (m, W)
    /\ (forall c, (if i mod 2 =? 0 then c mod r ^ u else c mod r ^ v)
                  = c mod r ^ m)
    /\ v <= m <= u /\ is_bytes W /\ length W = 4%nat
    /\ over alphabet m A /\ over alphabet (u + v - m) B
    /\ halves alphabet u v (i + 1) (B, A).
Proof.
  unfold halves. intros H.
  rewrite parity_succ.
  destruct (i mod 2 =? 0); cbn [negb fst snd] in *; destruct H as [HA HB].
  - exists u, Tr. replace (u + v - u) with v by lia.
    destruct Tr_bytes. split_and!; try done; lia.
  - exists v, Tl. replace (u + v - v) with u by lia.
    destruct Tl_bytes. split_and!; try done; lia.
Qed.

Lemma halves_succ (i : Z) (A B C : str) (m : Z) :
  halves alphabet u v (i + 1) (B, A) -> over alphabet m A -> over alphabet m C ->
  halves alphabet u v (i + 1) (B, C).
Proof.
  unfold halves. intros H [_ HA] [HC1 HC2].
  destruct ((i + 1) mod 2 =? 0); cbn [fst snd] in *;
    destruct H as [HB [_ HA']]; (split; [done|]); split; try done; lia.
Qed.

Lemma encrypt_round_Ok (i : Z) (A B : str) :
  0 <= i < 8 -> halves alphabet u v i (A, B) ->
  exists C, enc (A, B) i = Ok (B, C) /\ halves alphabet u v (i + 1) (B, C).
Proof.
  intros Hi Hst.
  destruct (round_side i A B Hst)
    as (m & W & Hside & Hmod & Hm & HW & HlW & HA & HB & Hnext).
  unfold enc, FF3Cipher.encrypt_round. rewrite Hside.
  destruct (calculateP_Ok i alphabet W B) as (P & HP); try done.
  { unfold alphabet. rewrite alphabet_len. lia. }
  { apply HB. }
  { apply (over_fits _ _ HB). lia. }
  fold alphabet r. rewrite HP, bind_ret. cbv zeta.
  destruct (over_value m A HA) as [-> HdA]. rewrite bind_ret, Hmod.
  match goal with |- context [encode_int_r ?c _ _ _] =>
    destruct (encode_over c m) as (C & -> & HC & _)
  end.
  { lia. } { apply Z.mod_pos_bound. apply Z.pow_pos_nonneg; unfold r; lia. }
  rewrite bind_ret. exists C. split; [done|].
  by apply (halves_succ i A B C m).
Qed.

Lemma decrypt_round_Ok (i : Z) (A B : str) :
  0 <= i < 8 -> halves alphabet u v (i + 1) (A, B) ->
  exists C, dec (A, B) i = Ok (C, A) /\ halves alphabet u v i (C, A).
Proof.
  intros Hi Hst. unfold halves in Hst |- *.
  rewrite parity_succ in Hst. unfold dec, FF3Cipher.decrypt_round.
  destruct Tl_bytes, Tr_bytes.
  assert (exists m W,
    (if i mod 2 =? 0 then (u, Tr) else (v, Tl)) = (m, W)
    /\ (forall c, (if i mod 2 =? 0 then c mod r ^ u else c mod r ^ v)
                  = c mod r ^ m)
    /\ v <= m <= u /\ is_bytes W /\ length W = 4%nat
    /\ over alphabet (u + v - m) A /\ over alphabet m B)
    as (m & W & Hside & Hmod & Hm & HW & HlW & HA & HB).
  { destruct (i mod 2 =? 0); cbn [negb fst snd] in Hst; destruct Hst.
    - exists u, Tr. replace (u + v - u) with v by lia.
      split_and!; try done; lia.
    - exists v, Tl. replace (u + v - v) with u by lia.
      split_and!; try done; lia. }
  rewrite Hside.
  destruct (calculateP_Ok i alphabet W A) as (P & HP); try done.
  { unfold alphabet. rewrite alphabet_len. lia. }
  { apply HA. }
  { apply (over_fits _ _ HA). lia. }
  fold alphabet r. rewrite HP, bind_ret. cbv zeta.
  destruct (over_value m B HB) as [-> HdB]. rewrite bind_ret, Hmod.
  match goal with |- context [encode_int_r ?c _ _ _] =>
    destruct (encode_over c m) as (C & -> & HC & _)
  end.
  { lia. } { apply Z.mod_pos_bound. apply Z.pow_pos_nonneg; unfold r; lia. }
  rewrite bind_ret. exists C. split; [done|].
  destruct (i mod 2 =? 0); injection Hside as <- <-; cbn [fst snd];
    split; try done.
  - replace (u + v - u) with v in HA by lia. done.
  - replace (u + v - v) with u in HA by lia. done.
Qed.

(** A decryption round undoes the encryption round of the same index. *)
Lemma decrypt_encrypt_round (i : Z) (A B : str) (st : str * str) :
  NoDup alphabet -> 0 <= i < 8 -> halves alphabet u v i (A, B) ->
  enc (A, B) i = Ok st -> dec st i = Ok (A, B).
Proof.
  intros Hnd Hi Hst.
  destruct (round_side i A B Hst)
    as (m & W & Hside & Hmod & Hm & HW & HlW & HA & HB & Hnext).
  unfold enc, FF3Cipher.encrypt_round.
  rewrite Hside.
  destruct (calculateP_Ok i alphabet W B) as (P & HP); try done.
  { unfold alphabet. rewrite alphabet_len. lia. }
  { apply HB. }
  { apply (over_fits _ _ HB). lia. }
  fold alphabet r. rewrite HP, bind_ret. cbv zeta.
  destruct (over_value m A HA) as [-> HdA]. rewrite bind_ret, Hmod.
  set (y := from_bytes (reverse_string
              (AES_ECB_encrypt (FF3Cipher.aesCipher self) (reverse_string P)))).
  set (dA := undigits r (map (digit alphabet) A)) in *.
  assert (0 < r ^ m) by (apply Z.pow_pos_nonneg; unfold r; lia).
  destruct (encode_over ((dA + y) mod r ^ m) m) as (C & -> & HC & HCeq).
  { lia. } { by apply Z.mod_pos_bound. }
  rewrite bind_ret. intros [= <-].
  unfold dec, FF3Cipher.decrypt_round.
  rewrite Hside. fold alphabet r. rewrite HP, bind_ret. cbv zeta. fold y.
  rewrite decode_int_lsf by apply HC. rewrite bind_ret, Hmod.
  unfold alphabet at 1. rewrite alphabet_len. fold r alphabet.
  rewrite HCeq, map_digit_nth_char; [|done|].
  2:{ unfold alphabet. rewrite alphabet_len. apply digits_range. unfold r. lia. }
  rewrite undigits_digits by (unfold r; lia). rewrite Z2Nat.id by lia.
  rewrite Z.mod_mod by lia. rewrite Zminus_mod_idemp_l.
  replace (dA + y - y) with dA by lia. rewrite Z.mod_small by done.
  destruct HA as [HA1 HA2]. rewrite <- HA2. unfold dA.
  rewrite encode_decode; try done. lia.
Qed.

(** Rounds [i, i+1, ..., i+k-1], and the same rounds backwards. *)
Lemma encrypt_rounds (k : nat) (i : Z) (st : str * str) :
  0 <= i -> i + Z.of_nat k <= 8 -> halves alphabet u v i st ->
  exists st',
    for_in (seqZ i (Z.of_nat k)) st enc = Ok st'
    /\ halves alphabet u v (i + Z.of_nat k) st'
    /\ (NoDup alphabet ->
        for_in (reverse (seqZ i (Z.of_nat k))) st' dec = Ok st).
Proof.
  revert i st. induction k as [|k IH]; intros i [A B] Hi Hk Hst.
  - exists (A, B). rewrite Z.add_0_r. done.
  - rewrite seqZ_cons by lia. rewrite for_in_cons.
    destruct (encrypt_round_Ok i A B ltac:(lia) Hst) as (C & HC & Hnext).
    rewrite HC, bind_ret.
    replace (Z.pred (Z.of_nat (S k))) with (Z.of_nat k) by lia.
    destruct (IH (Z.succ i) (B, C)) as (st' & Hrun & Hend & Hback); try lia.
    { by replace (Z.succ i) with (i + 1) by lia. }
    exists st'. split; [done|]. split.
    + by replace (i + Z.of_nat (S k)) with (Z.succ i + Z.of_nat k) by lia.
    + intros Hnd. rewrite reverse_cons, for_in_app, Hback by done.
      rewrite bind_ret. cbn [for_in].
      rewrite (decrypt_encrypt_round i A B (B, C)) by (done || lia). done.
Qed.

Lemma decrypt_rounds (k : nat) (i : Z) (st : str * str) :
  0 <= i -> i + Z.of_nat k <= 8 -> halves alphabet u v (i + Z.of_nat k) st ->
  exists st',
    for_in (reverse (seqZ i (Z.of_nat k))) st dec = Ok st'
    /\ halves alphabet u v i st'.
Proof.
  revert i st. induction k as [|k IH]; intros i st Hi Hk Hst.
  - exists st. rewrite Z.add_0_r in Hst. done.
  - rewrite seqZ_cons by lia.
    replace (Z.pred (Z.of_nat (S k))) with (Z.of_nat k) by lia.
    rewrite reverse_cons, for_in_app.
    destruct (IH (Z.succ i) st) as ([A B] & Hrun & Hmid); try lia.
    { by replace (Z.succ i + Z.of_nat k) with (i + Z.of_nat (S k)) by lia. }
    rewrite Hrun, bind_ret. cbn [for_in].
    replace (Z.succ i) with (i + 1) in Hmid by lia.
    destruct (decrypt_round_Ok i A B ltac:(lia) Hmid) as (C & -> & Hend).
    rewrite bind_ret. eauto.
Qed.

(** An input character outside the alphabet stops round 0. *)
Lemma encrypt_round_0_raises (A B : str) :
  len A = u -> len B = v ->
  ~ Forall (fun c => c ∈ alphabet) (A ++ B) ->
  enc (A, B) 0 = Raise (ValueError substring_not_found).
Proof.
  intros HlA HlB Hbad. unfold enc, FF3Cipher.encrypt_round.
  change (0 mod 2 =? 0) with true. cbv iota. fold alphabet r.
  destruct Tr_bytes as [HTr HlTr].
  destruct (decide (Forall (fun c => c ∈ alphabet) B)) as [HB|HB].
  - destruct (calculateP_Ok 0 alphabet Tr B) as (P & ->); try done.
    { unfold alphabet. rewrite alphabet_len. lia. }
    { apply (over_fits v); [done | lia]. }
    rewrite bind_ret. cbv zeta.
    rewrite decode_int_raises; [done|].
    intros HA. apply Hbad. by apply Forall_app.
  - by rewrite calculateP_raises.
Qed.
End Rounds.

(** ** The cipher instance *)

Lemma init_Ok (key tweak : str) (radix : option Z) (alphabet : option str)
    (self : FF3Cipher.t) :
  FF3Cipher.__init__ key tweak radix alphabet = Ok self ->
  self.(FF3Cipher.tweak) = tweak
  /\ validate_radix_and_alphabet radix alphabet
     = Ok (self.(FF3Cipher.radix), self.(FF3Cipher.alphabet))
  /\ minlen_and_maxlen self.(FF3Cipher.radix)
     = (self.(FF3Cipher.minLen), self.(FF3Cipher.maxLen)).
Proof.
  unfold FF3Cipher.__init__. intros H.
  apply bind_Ok in H as ([r a] & Hv & H).
  apply bind_Ok in H as (keybytes & Hk & H).
  destruct (minlen_and_maxlen r) as [mn mx] eqn:Hmm.
  cbv zeta in H. case_if; [discriminate|]. injection H as <-. by cbn.
Qed.

Lemma ceil_half_bounds (n k : Z) :
  2 <= n <= 2 * k ->
  1 <= n - FF3Cipher.ceil_half n <= FF3Cipher.ceil_half n
  /\ FF3Cipher.ceil_half n <= k /\ 0 <= FF3Cipher.ceil_half n <= n.
Proof.
  intros Hn. unfold FF3Cipher.ceil_half.
  pose proof (Z.div_mod (n + 1) 2 ltac:(lia)).
  pose proof (Z.mod_pos_bound (n + 1) 2 ltac:(lia)). lia.
Qed.

Section EngineProperties.
Variable AES_ECB_encrypt : bytes -> bytes -> bytes.
Variable self : FF3Cipher.t.
Variables (tweak : str) (tweakBytes : bytes).

Hypothesis radix_range : 2 <= self.(FF3Cipher.radix) <= MAX_RADIX.
Hypothesis alphabet_len : len self.(FF3Cipher.alphabet) = self.(FF3Cipher.radix).
Hypothesis bounds :
  minlen_and_maxlen self.(FF3Cipher.radix)
  = (self.(FF3Cipher.minLen), self.(FF3Cipher.maxLen)).
Hypothesis tweak_hex : fromhex tweak = Ok tweakBytes.
Hypothesis tweak_len : len tweakBytes = 7 \/ len tweakBytes = 8.

Let alphabet := self.(FF3Cipher.alphabet).

Lemma tweak_guard :
  negb ((len tweakBytes =? TWEAK_LEN) || (len tweakBytes =? TWEAK_LEN_NEW))
  = false.
Proof. unfold TWEAK_LEN, TWEAK_LEN_NEW. destruct tweak_len as [-> | ->]; done. Qed.

Lemma length_guard (n : Z) :
  self.(FF3Cipher.minLen) <= n <= self.(FF3Cipher.maxLen) ->
  (n <? self.(FF3Cipher.minLen)) || (n >? self.(FF3Cipher.maxLen)) = false.
Proof.
  intros Hn. rewrite Z.gtb_ltb.
  destruct (Z.ltb_spec n (FF3Cipher.minLen self)); [lia|].
  destruct (Z.ltb_spec (FF3Cipher.maxLen self) n); [lia|]. done.
Qed.

Lemma split_bounds (n : Z) :
  self.(FF3Cipher.minLen) <= n <= self.(FF3Cipher.maxLen) ->
  1 <= n - FF3Cipher.ceil_half n <= FF3Cipher.ceil_half n
  /\ self.(FF3Cipher.radix) ^ FF3Cipher.ceil_half n <= 2 ^ 96
  /\ 0 <= FF3Cipher.ceil_half n <= n.
Proof.
  intros Hn.
  destruct (minlen_and_maxlen_bounds _ _ _ radix_range bounds)
    as (Hmin & k & Hmax & Hk & Hfit).
  destruct (ceil_half_bounds n k ltac:(lia)) as (? & ? & ?).
  split; [done|]. split; [|done].
  transitivity (self.(FF3Cipher.radix) ^ k); [|done].
  apply Z.pow_le_mono_r; lia.
Qed.

Lemma split_halves (s : str) :
  Forall (fun c => c ∈ alphabet) s ->
  self.(FF3Cipher.minLen) <= len s <= self.(FF3Cipher.maxLen) ->
  halves alphabet (FF3Cipher.ceil_half (len s))
    (len s - FF3Cipher.ceil_half (len s)) 0
    (take (Z.to_nat (FF3Cipher.ceil_half (len s))) s,
     drop (Z.to_nat (FF3Cipher.ceil_half (len s))) s).
Proof.
  intros Hs Hn. destruct (split_bounds _ Hn) as (? & ? & ?).
  unfold halves. change (0 mod 2 =? 0) with true. cbn [fst snd].
  split; split.
  - by apply Forall_take.
  - apply len_take. lia.
  - by apply Forall_drop.
  - apply len_drop. lia.
Qed.

Lemma join_halves (u v : Z) (A B : str) :
  0 <= u -> halves alphabet u v 8 (A, B) ->
  over alphabet (u + v) (A ++ B)
  /\ take (Z.to_nat u) (A ++ B) = A /\ drop (Z.to_nat u) (A ++ B) = B.
Proof.
  unfold halves. change (8 mod 2 =? 0) with true. cbn [fst snd].
  intros Hu [[HA HlA] [HB HlB]]. split; [split|].
  - by apply Forall_app.
  - rewrite len_app. lia.
  - assert (Z.to_nat u = length A) as -> by (unfold len in HlA; lia).
    by rewrite take_app_length, drop_app_length.
Qed.

Lemma range_rounds : range NUM_ROUNDS = seqZ 0 (Z.of_nat 8).
Proof. reflexivity. Qed.

(** Encryption of a well-formed input returns a string of the same
    length over the alphabet, which decryption maps back when the
    alphabet has no repeated character. *)
Lemma encrypt_with_tweak_Ok (s : str) :
  Forall (fun c => c ∈ alphabet) s ->
  self.(FF3Cipher.minLen) <= len s <= self.(FF3Cipher.maxLen) ->
  exists ct,
    FF3Cipher.encrypt_with_tweak AES_ECB_encrypt self s tweak = Ok ct
    /\ over alphabet (len s) ct
    /\ (NoDup alphabet ->
        FF3Cipher.decrypt_with_tweak AES_ECB_encrypt self ct tweak = Ok s).
Proof.
  intros Hs Hn.
  destruct (split_bounds _ Hn) as (Huv & Hfit & Hu).
  destruct (tweak_halves_Ok tweakBytes) as (Tl & Tr & HT & HTl & HlTl & HTr & HlTr).
  { by apply (fromhex_is_bytes tweak). }
  { unfold len in tweak_len. lia. }
  set (u := FF3Cipher.ceil_half (len s)) in *.
  set (v := len s - u) in *.
  destruct (encrypt_rounds AES_ECB_encrypt self u v Tl Tr radix_range
              alphabet_len Huv Hfit (conj HTl HlTl) (conj HTr HlTr)
              8 0 (take (Z.to_nat u) s, drop (Z.to_nat u) s))
    as ([A B] & Hrun & Hend & Hback); try lia.
  { by apply split_halves. }
  destruct (join_halves u v A B ltac:(lia) Hend) as (Hout & Htake & Hdrop).
  replace (u + v) with (len s) in Hout by (unfold v; lia).
  exists (A ++ B). split; [|split; [done|]].
  - unfold FF3Cipher.encrypt_with_tweak.
    rewrite tweak_hex, bind_ret. cbv zeta.
    rewrite length_guard by done. rewrite tweak_guard.
    rewrite HT, bind_ret. fold u v. rewrite range_rounds, Hrun. done.
  - intros Hnd. unfold FF3Cipher.decrypt_with_tweak.
    rewrite tweak_hex, bind_ret. cbv zeta.
    destruct Hout as [_ Hlen]. rewrite Hlen.
    rewrite length_guard by done. rewrite tweak_guard.
    rewrite HT, bind_ret. fold u v. rewrite Htake, Hdrop.
    rewrite range_rounds, (Hback Hnd), bind_ret. by rewrite take_drop.
Qed.

Lemma decrypt_with_tweak_Ok (s : str) :
  Forall (fun c => c ∈ alphabet) s ->
  self.(FF3Cipher.minLen) <= len s <= self.(FF3Cipher.maxLen) ->
  exists pt,
    FF3Cipher.decrypt_with_tweak AES_ECB_encrypt self s tweak = Ok pt
    /\ over alphabet (len s) pt.
Proof.
  intros Hs Hn.
  destruct (split_bounds _ Hn) as (Huv & Hfit & Hu).
  destruct (tweak_halves_Ok tweakBytes) as (Tl & Tr & HT & HTl & HlTl & HTr & HlTr).
  { by apply (fromhex_is_bytes tweak). }
  { unfold len in tweak_len. lia. }
  set (u := FF3Cipher.ceil_half (len s)) in *.
  set (v := len s - u) in *.
  destruct (decrypt_rounds AES_ECB_encrypt self u v Tl Tr radix_range
              alphabet_len Huv Hfit (conj HTl HlTl) (conj HTr HlTr)
              8 0 (take (Z.to_nat u) s, drop (Z.to_nat u) s))
    as ([A B] & Hrun & Hend); try lia.
  { pose proof (split_halves s Hs Hn) as H. fold u v in H.
    unfold halves in H |- *. exact H. }
  assert (halves alphabet u v 8 (A, B)) as Hend' by exact Hend.
  destruct (join_halves u v A B ltac:(lia) Hend') as (Hout & _ & _).
  replace (u + v) with (len s) in Hout by (unfold v; lia).
  exists (A ++ B). split; [|done].
  unfold FF3Cipher.decrypt_with_tweak.
  rewrite tweak_hex, bind_ret. cbv zeta.
  rewrite length_guard by done. rewrite tweak_guard.
  rewrite HT, bind_ret. fold u v. rewrite range_rounds, Hrun. done.
Qed.

(** A character outside the alphabet, in an input of accepted length,
    raises in round 0. *)
Lemma encrypt_with_tweak_bad_char (s : str) :
  ~ Forall (fun c => c ∈ alphabet) s ->
  self.(FF3Cipher.minLen) <= len s <= self.(FF3Cipher.maxLen) ->
  FF3Cipher.encrypt_with_tweak AES_ECB_encrypt self s tweak
  = Raise (ValueError substring_not_found).
Proof.
  intros Hs Hn.
  destruct (split_bounds _ Hn) as (Huv & Hfit & Hu).
  destruct (tweak_halves_Ok tweakBytes) as (Tl & Tr & HT & HTl & HlTl & HTr & HlTr).
  { by apply (fromhex_is_bytes tweak). }
  { unfold len in tweak_len. lia. }
  unfold FF3Cipher.encrypt_with_tweak.
  rewrite tweak_hex, bind_ret. cbv zeta.
  rewrite length_guard by done. rewrite tweak_guard.
  rewrite HT, bind_ret. rewrite range_rounds.
  rewrite seqZ_cons by lia. rewrite for_in_cons.
  rewrite (encrypt_round_0_raises AES_ECB_encrypt self _ _ Tl Tr); try done.
  - by apply len_take.
  - apply len_drop. lia.
  - by rewrite take_drop.
Qed.

Lemma encrypt_with_tweak_bad_length (s : str) :
  ~ self.(FF3Cipher.minLen) <= len s <= self.(FF3Cipher.maxLen) ->
  FF3Cipher.encrypt_with_tweak AES_ECB_encrypt self s tweak
  = Raise (ValueError (message_length (len s) self.(FF3Cipher.minLen)
                                      self.(FF3Cipher.maxLen))).
Proof.
  intros Hn. unfold FF3Cipher.encrypt_with_tweak.
  rewrite tweak_hex, bind_ret. cbv zeta. rewrite Z.gtb_ltb.
  destruct (Z.ltb_spec (len s) (FF3Cipher.minLen self)); [done|].
  destruct (Z.ltb_spec (FF3Cipher.maxLen self) (len s)); [done|]. lia.
Qed.
End EngineProperties.

(** ** Adequacy of the loop fuel, and two remarks *)

(** With [base >= 2] the loop of [encode_int_r] ends within its fuel,
    whatever [n] and the alphabet are. *)
Lemma encode_loop_terminates (base : Z) (alphabet : str) (fuel : nat)
    (n : Z) (x : str) :
  2 <= base -> Z.log2 n <= Z.of_nat fuel ->
  encode_loop fuel base alphabet n x <> Raise Diverges.
Proof.
  intros Hb. revert n x. induction fuel as [|fuel IH]; intros n x Hf.
  - cbn [encode_loop]. rewrite Z.geb_leb.
    destruct (Z.leb_spec base n) as [Hge|]; [|discriminate].
    assert (1 <= Z.log2 n) by (apply (Z.log2_le_pow2 n 1); lia). lia.
  - cbn [encode_loop]. rewrite Z.geb_leb.
    destruct (Z.leb_spec base n) as [Hge|]; [|discriminate].
    unfold divmod. destruct (getitem alphabet (n mod base)) as [c|e] eqn:Hc.
    + rewrite bind_ret. apply IH. pose proof (log2_quot n base Hb Hge). lia.
    + rewrite bind_raise. unfold getitem in Hc.
      destruct (_ && _) in Hc; [destruct (alphabet !! _) in Hc|];
        congruence.
Qed.

(** Only an alphabet with a repeated character, which the validator is
    meant to reject, separates the two codec functions. *)
Example codec_with_repeated_character :
  encode_int_r 1 2 1 (Some (py "aa")) ≫= (fun s => decode_int s (py "aa"))
  = Ok 0.
Proof. vm_compute. reflexivity. Qed.

(** The right half of a 56-bit tweak does not depend on byte 3 of the
    tweak, whose low nibble holds the bits [t[28..31]]. *)
Lemma tweak_halves_56_right (t0 t1 t2 t3 t3' t4 t5 t6 : Z) (Tl Tr : bytes) :
  is_bytes [t0; t1; t2; t3; t4; t5; t6] -> 0 <= t3' < 256 ->
  FF3Cipher.tweak_halves [t0; t1; t2; t3; t4; t5; t6] = Ok (Tl, Tr) ->
  exists Tl', FF3Cipher.tweak_halves [t0; t1; t2; t3'; t4; t5; t6] = Ok (Tl', Tr).
Proof.
  intros Hb H3'. unfold FF3Cipher.tweak_halves.
  change (len [t0; t1; t2; t3; t4; t5; t6] =? TWEAK_LEN) with false.
  change (len [t0; t1; t2; t3'; t4; t5; t6] =? TWEAK_LEN) with false.
  change (len [t0; t1; t2; t3; t4; t5; t6] =? TWEAK_LEN_NEW) with true.
  change (len [t0; t1; t2; t3'; t4; t5; t6] =? TWEAK_LEN_NEW) with true.
  cbv iota. cbn [take drop]. cbv zeta.
  apply is_bytes_cons in Hb as [H0 Hb]. apply is_bytes_cons in Hb as [H1 Hb].
  apply is_bytes_cons in Hb as [H2 Hb]. apply is_bytes_cons in Hb as [H3 _].
  change (getitem [t0; t1; t2; t3] 3) with (Ok t3).
  change (getitem [t0; t1; t2; t3'] 3) with (Ok t3').
  rewrite !bind_ret.
  rewrite !setitem_Ok by (simpl; lia || apply land_byte_r; lia).
  rewrite !bind_ret.
  destruct (to_bytes (Z.shiftl (from_bytes [t4; t5; t6]) 4) 4) as [Tr0|e];
    [|discriminate].
  rewrite !bind_ret.
  change (getitem [t0; t1; t2; t3; t4; t5; t6] 6) with (Ok t6).
  change (getitem [t0; t1; t2; t3'; t4; t5; t6] 6) with (Ok t6).
  rewrite !bind_ret.
  destruct (setitem Tr0 3 (Z.land (Z.shiftl t6 4) 240)) as [Tr1|e];
    [|discriminate].
  rewrite !bind_ret. intros [= <- <-]. eauto.
Qed.

(** * The claims *)

Ltac by_decide := apply (bool_decide_unpack _); vm_compute; exact I.

(** ** C1: round trip *)

(** C1. For a cipher instance built by the constructor whose alphabet has
    pairwise distinct characters and whose tweak is the hexadecimal text
    of 7 or 8 bytes, and for every string [s] over the alphabet with
    [minLen <= |s| <= maxLen], [encrypt s] returns a ciphertext and
    [decrypt] of that ciphertext returns [s]; the block cipher is an
    arbitrary function. *)
Theorem C1_decrypt_encrypt (AES_ECB_encrypt : bytes -> bytes -> bytes)
    (key tweak : str) (radix : option Z) (alphabet : option str)
    (self : FF3Cipher.t) (tweakBytes : bytes) (s : str) :
  FF3Cipher.__init__ key tweak radix alphabet = Ok self ->
  NoDup self.(FF3Cipher.alphabet) ->
  fromhex tweak = Ok tweakBytes ->
  len tweakBytes = 7 \/ len tweakBytes = 8 ->
  Forall (fun c => c ∈ self.(FF3Cipher.alphabet)) s ->
  self.(FF3Cipher.minLen) <= len s <= self.(FF3Cipher.maxLen) ->
  exists ct,
    FF3Cipher.encrypt AES_ECB_encrypt self s = Ok ct
    /\ FF3Cipher.decrypt AES_ECB_encrypt self ct = Ok s.
Proof.
  intros Hinit Hnd Hhex Htl Hs Hn.
  destruct (init_Ok _ _ _ _ _ Hinit) as (Htw & Hv & Hmm).
  destruct (validate_Ok _ _ _ _ Hv) as [Hr Ha].
  destruct (encrypt_with_tweak_Ok AES_ECB_encrypt self tweak tweakBytes
              Hr Ha Hmm Hhex Htl s Hs Hn) as (ct & Henc & _ & Hdec).
  exists ct. unfold FF3Cipher.encrypt, FF3Cipher.decrypt. rewrite Htw.
  split; [done | by apply Hdec].
Qed.

Lemma C1_decrypt_encrypt_witness :
  exists ct,
    FF3Cipher.encrypt sample_cipher sample_instance sample_plaintext = Ok ct
    /\ FF3Cipher.decrypt sample_cipher sample_instance ct = Ok sample_plaintext.
Proof.
  apply (C1_decrypt_encrypt sample_cipher sample_key sample_tweak None None
           sample_instance [0xD8; 0xE7; 0x92; 0x0A; 0xFA; 0x33; 0x0A; 0x73]).
  - vm_compute. reflexivity.
  - by_decide.
  - vm_compute. reflexivity.
  - right. vm_compute. reflexivity.
  - by_decide.
  - vm_compute. split; discriminate.
Defined.

(** ** C2: decode_int *)

(** C2 as stated fails: ["10"] over the decimal digits decodes to 1, and
    the most-significant-first numeral, the sum of
    [index(s[k]) * |alphabet|^(|s|-1-k)], is 10. *)
Lemma C2_msf_counterexample :
  Forall (fun c => c ∈ py "0123456789") (py "10")
  /\ decode_int (py "10") (py "0123456789") = Ok 1
  /\ numeral_msf (py "0123456789") (py "10") = 10
  /\ decode_int (py "10") (py "0123456789")
     <> Ok (numeral_msf (py "0123456789") (py "10")).
Proof.
  split; [by_decide|]. split; [vm_compute; reflexivity|].
  split; [vm_compute; reflexivity|]. vm_compute. discriminate.
Qed.

(** C2, amended. For every string [s] whose characters all occur in the
    alphabet, [decode_int s alphabet] returns the value of [s] read least
    significant digit first: the sum over the positions [k] of
    [index(s[k]) * |alphabet|^k]. *)
Theorem C2_decode_int_lsf (s alphabet : str) :
  Forall (fun c => c ∈ alphabet) s ->
  decode_int s alphabet = Ok (numeral_lsf alphabet s).
Proof.
  intros Hs. rewrite numeral_lsf_undigits. by apply decode_int_lsf.
Qed.

Lemma C2_decode_int_lsf_witness :
  decode_int (py "567890000") (py "0123456789")
  = Ok (numeral_lsf (py "0123456789") (py "567890000")).
Proof. apply C2_decode_int_lsf. by_decide. Defined.

(** ** C3: duplicate characters *)

(** C3 fails on the code: the alphabet ["aab"] repeats a character, and
    the validator and the constructor both accept it. The duplicate test
    compares the length of the alphabet with the length of [str(alphabet)],
    the alphabet itself. *)
Theorem C3_duplicates_accepted :
  ~ NoDup (py "aab")
  /\ validate_radix_and_alphabet None (Some (py "aab")) = Ok (3, py "aab")
  /\ exists self,
       FF3Cipher.__init__ sample_key sample_tweak None (Some (py "aab")) = Ok self
       /\ self.(FF3Cipher.alphabet) = py "aab".
Proof.
  split; [|split].
  - intros H. apply (bool_decide_pack _) in H. vm_compute in H. exact H.
  - vm_compute. reflexivity.
  - eexists. split; vm_compute; reflexivity.
Qed.

(** ** C4: the right half of a 56-bit tweak *)

(** C4 fails on the code: for the tweak [0000000F123456] the right half is
    [01 23 45 60], the 24-bit value of bytes 4..6 shifted left by four bits,
    and not [12 34 56 F0], the packing [t[32..55] || t[28..31] || 0000]. *)
Theorem C4_right_half_tweak :
  exists tweakBytes Tl,
    fromhex (py "0000000F123456") = Ok tweakBytes
    /\ FF3Cipher.tweak_halves tweakBytes = Ok (Tl, [0x01; 0x23; 0x45; 0x60])
    /\ Tr_packed tweakBytes = Ok [0x12; 0x34; 0x56; 0xF0].
Proof. eexists _, _. split; [|split]; vm_compute; reflexivity. Qed.

(** ** C5: the codec functions *)

(** C5 as stated fails: over an alphabet of [radix] distinct characters no
    [n] below [radix ^ length] is decoded to anything but [n]. *)
Lemma C5_no_codec_mismatch :
  ~ exists (radix : Z) (alphabet : str) (length n : Z),
      valid_alphabet radix alphabet
      /\ 0 <= n < radix ^ length
      /\ encode_int_r n radix length (Some alphabet)
           ≫= (fun s => decode_int s alphabet) <> Ok n.
Proof.
  intros (radix & alphabet & length & n & Hv & Hn & Hne).
  apply Hne. by apply decode_encode.
Qed.

(** C5, amended. Both codec functions use the reversed digit order, and on
    the Feistel domain they are inverse: for a radix in [2, 65536], an
    alphabet of [radix] distinct characters and [0 <= n < radix ^ length],
    decoding the string produced by [encode_int_r] returns [n]. *)
Theorem C5_decode_encode (radix : Z) (alphabet : str) (length n : Z) :
  valid_alphabet radix alphabet -> 0 <= n < radix ^ length ->
  exists s,
    encode_int_r n radix length (Some alphabet) = Ok s
    /\ decode_int s alphabet = Ok n.
Proof.
  intros Hv Hn. pose proof (decode_encode n radix length alphabet Hv Hn) as H.
  apply bind_Ok in H as (s & Hs & Hd). eauto.
Qed.

Lemma C5_decode_encode_witness :
  exists s,
    encode_int_r 7 5 5 (Some (py "01234")) = Ok s
    /\ decode_int s (py "01234") = Ok 7.
Proof.
  apply C5_decode_encode.
  - split; [vm_compute; split; discriminate|].
    split; [vm_compute; reflexivity | by_decide].
  - vm_compute. split; [discriminate | reflexivity].
Defined.

(** ** C6: the round block of the first NIST sample *)

(** C6. With round index 0, the decimal digits, [B = "567890000"] and the
    half-tweak [FA330A73], [calculateP] returns
    [FA 33 0A 73 00 00 00 00 00 00 00 00 00 01 81 CD]. *)
Theorem C6_calculateP_sample :
  fromhex (py "FA330A73")
    ≫= (fun W => FF3Cipher.calculateP 0 (py "0123456789") W (py "567890000"))
  = Ok [0xFA; 0x33; 0x0A; 0x73; 0x00; 0x00; 0x00; 0x00;
        0x00; 0x00; 0x00; 0x00; 0x00; 0x01; 0x81; 0xCD].
Proof. vm_compute. reflexivity. Qed.

(** ** C7: length and alphabet of the output *)

(** C7. For a cipher instance built by the constructor whose tweak is the
    hexadecimal text of 7 or 8 bytes, and every string [s] over the
    alphabet with [minLen <= |s| <= maxLen], [encrypt s] and [decrypt s]
    both return a string of the length of [s] whose characters all occur
    in the alphabet; the block cipher is an arbitrary function. *)
Theorem C7_length_and_alphabet (AES_ECB_encrypt : bytes -> bytes -> bytes)
    (key tweak : str) (radix : option Z) (alphabet : option str)
    (self : FF3Cipher.t) (tweakBytes : bytes) (s : str) :
  FF3Cipher.__init__ key tweak radix alphabet = Ok self ->
  fromhex tweak = Ok tweakBytes ->
  len tweakBytes = 7 \/ len tweakBytes = 8 ->
  Forall (fun c => c ∈ self.(FF3Cipher.alphabet)) s ->
  self.(FF3Cipher.minLen) <= len s <= self.(FF3Cipher.maxLen) ->
  exists ct pt,
    FF3Cipher.encrypt AES_ECB_encrypt self s = Ok ct
    /\ length ct = length s
    /\ Forall (fun c => c ∈ self.(FF3Cipher.alphabet)) ct
    /\ FF3Cipher.decrypt AES_ECB_encrypt self s = Ok pt
    /\ length pt = length s
    /\ Forall (fun c => c ∈ self.(FF3Cipher.alphabet)) pt.
Proof.
  intros Hinit Hhex Htl Hs Hn.
  destruct (init_Ok _ _ _ _ _ Hinit) as (Htw & Hv & Hmm).
  destruct (validate_Ok _ _ _ _ Hv) as [Hr Ha].
  destruct (encrypt_with_tweak_Ok AES_ECB_encrypt self tweak tweakBytes
              Hr Ha Hmm Hhex Htl s Hs Hn) as (ct & Henc & [Hct Hlct] & _).
  destruct (decrypt_with_tweak_Ok AES_ECB_encrypt self tweak tweakBytes
              Hr Ha Hmm Hhex Htl s Hs Hn) as (pt & Hdec & [Hpt Hlpt]).
  exists ct, pt. unfold FF3Cipher.encrypt, FF3Cipher.decrypt. rewrite Htw.
  unfold len in Hlct, Hlpt. split_and!; try done; lia.
Qed.

Lemma C7_length_and_alphabet_witness :
  exists ct pt,
    FF3Cipher.encrypt sample_cipher sample_instance sample_plaintext = Ok ct
    /\ length ct = length sample_plaintext
    /\ Forall (fun c => c ∈ sample_instance.(FF3Cipher.alphabet)) ct
    /\ FF3Cipher.decrypt sample_cipher sample_instance sample_plaintext = Ok pt
    /\ length pt = length sample_plaintext
    /\ Forall (fun c => c ∈ sample_instance.(FF3Cipher.alphabet)) pt.
Proof.
  apply (C7_length_and_alphabet sample_cipher sample_key sample_tweak None None
           sample_instance [0xD8; 0xE7; 0x92; 0x0A; 0xFA; 0x33; 0x0A; 0x73]).
  - vm_compute. reflexivity.
  - vm_compute. reflexivity.
  - right. vm_compute. reflexivity.
  - by_decide.
  - vm_compute. split; discriminate.
Defined.

(** ** C8: when encrypt raises *)

(** C8. For a cipher instance built by the constructor whose stored tweak
    is the hexadecimal text of 7 or 8 bytes, [encrypt plaintext] raises if
    and only if [|plaintext| < minLen], or [|plaintext| > maxLen], or some
    character of the plaintext does not occur in the alphabet. A length
    out of range raises the message-length error; a foreign character in
    a plaintext of accepted length raises the [index] error of the codec,
    in round 0; and a call that raises returns no string. *)
Theorem C8_encrypt_raises_iff (AES_ECB_encrypt : bytes -> bytes -> bytes)
    (key tweak : str) (radix : option Z) (alphabet : option str)
    (self : FF3Cipher.t) (tweakBytes : bytes) (plaintext : str) :
  FF3Cipher.__init__ key tweak radix alphabet = Ok self ->
  fromhex self.(FF3Cipher.tweak) = Ok tweakBytes ->
  len tweakBytes = 7 \/ len tweakBytes = 8 ->
  let out_of_range :=
    len plaintext < self.(FF3Cipher.minLen)
    \/ len plaintext > self.(FF3Cipher.maxLen) in
  let foreign := Exists (fun c => c ∉ self.(FF3Cipher.alphabet)) plaintext in
  let call := FF3Cipher.encrypt AES_ECB_encrypt self plaintext in
  (raises call <-> out_of_range \/ foreign)
  /\ (out_of_range ->
      call = Raise (ValueError (message_length (len plaintext)
                      self.(FF3Cipher.minLen) self.(FF3Cipher.maxLen))))
  /\ (~ out_of_range -> foreign ->
      call = Raise (ValueError substring_not_found))
  /\ (raises call -> forall ct, call <> Ok ct).
Proof.
  intros Hinit Hhex Htl out_of_range foreign call.
  destruct (init_Ok _ _ _ _ _ Hinit) as (Htw & Hv & Hmm).
  destruct (validate_Ok _ _ _ _ Hv) as [Hr Ha].
  assert (out_of_range ->
          call = Raise (ValueError (message_length (len plaintext)
                          self.(FF3Cipher.minLen) self.(FF3Cipher.maxLen))))
    as Hlen.
  { intros Hout. unfold call, FF3Cipher.encrypt.
    apply (encrypt_with_tweak_bad_length AES_ECB_encrypt self _ tweakBytes Hhex).
    unfold out_of_range in Hout. lia. }
  assert (~ out_of_range -> foreign ->
          call = Raise (ValueError substring_not_found)) as Hchar.
  { intros Hin Hf. unfold call, FF3Cipher.encrypt.
    apply (encrypt_with_tweak_bad_char AES_ECB_encrypt self _ tweakBytes
             Hr Ha Hmm Hhex Htl).
    - intros Hall. apply (Exists_not_Forall (fun c => c ∈ FF3Cipher.alphabet self)
                            plaintext); done.
    - unfold out_of_range in Hin. lia. }
  split; [|split; [done|split; [done|]]].
  - split.
    + intros [e He].
      destruct (decide (self.(FF3Cipher.minLen) <= len plaintext
                        <= self.(FF3Cipher.maxLen))) as [Hn|Hn].
      * right.
        destruct (decide (Forall (fun c => c ∈ FF3Cipher.alphabet self) plaintext))
          as [Hs|Hs].
        -- destruct (encrypt_with_tweak_Ok AES_ECB_encrypt self _ tweakBytes
                       Hr Ha Hmm Hhex Htl plaintext Hs Hn) as (ct & Henc & _).
           unfold call, FF3Cipher.encrypt in He. congruence.
        -- by apply (not_Forall_Exists (fun c => c ∈ FF3Cipher.alphabet self)).
      * left. unfold out_of_range. lia.
    + intros [Hout|Hf].
      * eexists. by apply Hlen.
      * destruct (decide out_of_range) as [Hout|Hin].
        -- eexists. by apply Hlen.
        -- eexists. by apply Hchar.
  - intros [e He] ct. rewrite He. discriminate.
Qed.

Lemma C8_encrypt_raises_iff_witness :
  raises (FF3Cipher.encrypt sample_cipher sample_instance (py "12345x789"))
  /\ FF3Cipher.encrypt sample_cipher sample_instance (py "12345x789")
     = Raise (ValueError substring_not_found)
  /\ FF3Cipher.encrypt sample_cipher sample_instance (py "12345")
     = Raise (ValueError (message_length 5 6 56)).
Proof.
  pose proof (C8_encrypt_raises_iff sample_cipher sample_key sample_tweak
                None None sample_instance
                [0xD8; 0xE7; 0x92; 0x0A; 0xFA; 0x33; 0x0A; 0x73]) as H.
  split; [|split].
  - apply (H (py "12345x789")).
    + vm_compute. reflexivity.
    + vm_compute. reflexivity.
    + right. vm_compute. reflexivity.
    + right. by_decide.
  - apply (H (py "12345x789")).
    + vm_compute. reflexivity.
    + vm_compute. reflexivity.
    + right. vm_compute. reflexivity.
    + vm_compute. intros [Hlt|Hgt]; [discriminate Hlt | discriminate Hgt].
    + by_decide.
  - apply (H (py "12345")).
    + vm_compute. reflexivity.
    + vm_compute. reflexivity.
    + right. vm_compute. reflexivity.
    + left. vm_compute. reflexivity.
Defined.

(** ** C9: the length bounds *)

(** C9 as stated fails: for radix 2 the bounds are [(20, 192)], and
    [2 ^ 192] exceeds [2 ^ 96 * 2]. *)
Lemma C9_maxLen_counterexample :
  minlen_and_maxlen 2 = (20, 192)
  /\ ~ (2 ^ (minlen_and_maxlen 2).2 <= 2 ^ 96 * 2).
Proof. split; [vm_compute; reflexivity|]. vm_compute. intros H. by apply H. Qed.

(** C9, amended. For every radix in 2, 3, 10, 16, 26, 36, 62,
    [minlen_and_maxlen radix] returns [(minLen, maxLen)] with
    [minLen = ceil(log_radix 1000000)] and
    [maxLen = 2 * floor(96 / log2 radix)], the logarithms read over the
    reals, with [radix ^ minLen >= 1000000] and
    [radix ^ (maxLen / 2) <= 2 ^ 96]: a half of a message of maximal
    length fits the twelve bytes of the round block. *)
Theorem C9_minlen_and_maxlen :
  Forall (fun radix =>
            let '(minLen, maxLen) := minlen_and_maxlen radix in
            minLen = minLen_formula radix
            /\ maxLen = maxLen_formula radix
            /\ radix ^ minLen >= 1000000
            /\ radix ^ (maxLen / 2) <= 2 ^ 96)
         [2; 3; 10; 16; 26; 36; 62].
Proof.
  repeat apply Forall_cons_2; try apply Forall_nil_2.
  all: match goal with |- context [minlen_and_maxlen ?r] =>
         pose proof (minlen_and_maxlen_formula r ltac:(lia)) as Hf;
         destruct (minlen_and_maxlen r) as [minLen maxLen] eqn:E;
         injection Hf as Hmin Hmax;
         vm_compute in E; injection E as <- <-
       end.
  all: split_and!; [exact Hmin | exact Hmax | vm_compute; discriminate
                   | vm_compute; discriminate].
Qed.

(** ** C10: the tweak is checked at use *)

Lemma init_any_tweak (key tweak tweak' : str) (radix : option Z)
    (alphabet : option str) (self : FF3Cipher.t) :
  FF3Cipher.__init__ key tweak radix alphabet = Ok self ->
  FF3Cipher.__init__ key tweak' radix alphabet = Ok (with_tweak self tweak').
Proof.
  unfold FF3Cipher.__init__. intros H.
  apply bind_Ok in H as ([r a] & -> & H). rewrite bind_ret.
  apply bind_Ok in H as (keybytes & -> & H). rewrite bind_ret.
  destruct (minlen_and_maxlen r) as [mn mx]. cbv zeta in *.
  case_if; [discriminate|]. by injection H as <-.
Qed.

Lemma tweak_not_hex (AES_ECB_encrypt : bytes -> bytes -> bytes)
    (self : FF3Cipher.t) (s tweak : str) (e : exception) :
  fromhex tweak = Raise e ->
  FF3Cipher.encrypt_with_tweak AES_ECB_encrypt self s tweak = Raise e
  /\ FF3Cipher.decrypt_with_tweak AES_ECB_encrypt self s tweak = Raise e.
Proof.
  intros H. unfold FF3Cipher.encrypt_with_tweak, FF3Cipher.decrypt_with_tweak.
  by rewrite H.
Qed.

Lemma tweak_hex_checks (AES_ECB_encrypt : bytes -> bytes -> bytes)
    (self : FF3Cipher.t) (s tweak : str) (tweakBytes : bytes) :
  fromhex tweak = Ok tweakBytes ->
  len tweakBytes <> 7 -> len tweakBytes <> 8 ->
  let expected :=
    if decide (self.(FF3Cipher.minLen) <= len s <= self.(FF3Cipher.maxLen))
    then Raise (ValueError (tweak_length (len tweakBytes)))
    else Raise (ValueError (message_length (len s) self.(FF3Cipher.minLen)
                                           self.(FF3Cipher.maxLen))) in
  FF3Cipher.encrypt_with_tweak AES_ECB_encrypt self s tweak = expected
  /\ FF3Cipher.decrypt_with_tweak AES_ECB_encrypt self s tweak = expected.
Proof.
  intros Hhex H7 H8 expected.
  unfold FF3Cipher.encrypt_with_tweak, FF3Cipher.decrypt_with_tweak, expected.
  rewrite Hhex, !bind_ret. cbv zeta. rewrite Z.gtb_ltb.
  unfold TWEAK_LEN, TWEAK_LEN_NEW.
  destruct (Z.eqb_spec (len tweakBytes) 8); [done|].
  destruct (Z.eqb_spec (len tweakBytes) 7); [done|].
  destruct (Z.ltb_spec (len s) (FF3Cipher.minLen self));
    destruct (Z.ltb_spec (FF3Cipher.maxLen self) (len s));
    case_decide; cbn [orb negb]; try done; lia.
Qed.

(** C10. The constructor stores the tweak as given and does not inspect
    it: an instance built with one tweak is built with every other tweak,
    the non-hexadecimal ones included, and differs in the stored tweak
    only. A tweak that is not hexadecimal text makes [encrypt] and
    [decrypt] raise the error of [bytes.fromhex]; a hexadecimal tweak of
    another length than 7 or 8 bytes makes them raise the tweak-length
    error, once the message length has passed its own check, which
    comes first. *)
Theorem C10_tweak_checked_at_use (AES_ECB_encrypt : bytes -> bytes -> bytes)
    (key tweak : str) (radix : option Z) (alphabet : option str)
    (self : FF3Cipher.t) :
  FF3Cipher.__init__ key tweak radix alphabet = Ok self ->
  self.(FF3Cipher.tweak) = tweak
  /\ (forall tweak',
        FF3Cipher.__init__ key tweak' radix alphabet
        = Ok (with_tweak self tweak'))
  /\ (forall s e,
        fromhex tweak = Raise e ->
        FF3Cipher.encrypt AES_ECB_encrypt self s = Raise e
        /\ FF3Cipher.decrypt AES_ECB_encrypt self s = Raise e)
  /\ (forall s tweakBytes,
        fromhex tweak = Ok tweakBytes ->
        len tweakBytes <> 7 -> len tweakBytes <> 8 ->
        let expected :=
          if decide (self.(FF3Cipher.minLen) <= len s
                     <= self.(FF3Cipher.maxLen))
          then Raise (ValueError (tweak_length (len tweakBytes)))
          else Raise (ValueError (message_length (len s)
                        self.(FF3Cipher.minLen) self.(FF3Cipher.maxLen))) in
        FF3Cipher.encrypt AES_ECB_encrypt self s = expected
        /\ FF3Cipher.decrypt AES_ECB_encrypt self s = expected).
Proof.
  intros Hinit. destruct (init_Ok _ _ _ _ _ Hinit) as (Htw & _ & _).
  unfold FF3Cipher.encrypt, FF3Cipher.decrypt. rewrite Htw.
  split; [done|]. split; [|split].
  - intros tweak'. by apply (init_any_tweak key tweak).
  - intros s e He. by apply tweak_not_hex.
  - intros s tweakBytes Hhex H7 H8. by apply tweak_hex_checks.
Qed.

Lemma C10_tweak_checked_at_use_witness :
  exists self,
    FF3Cipher.__init__ sample_key (py "not a tweak") None None = Ok self
    /\ self.(FF3Cipher.tweak) = py "not a tweak"
    /\ FF3Cipher.encrypt sample_cipher self sample_plaintext
       = Raise (ValueError non_hexadecimal)
    /\ FF3Cipher.decrypt sample_cipher self sample_plaintext
       = Raise (ValueError non_hexadecimal).
Proof.
  exists (with_tweak sample_instance (py "not a tweak")).
  assert (FF3Cipher.__init__ sample_key (py "not a tweak") None None
          = Ok (with_tweak sample_instance (py "not a tweak"))) as Hinit
    by (vm_compute; reflexivity).
  destruct (C10_tweak_checked_at_use sample_cipher _ _ _ _ _ Hinit)
    as (Hstored & _ & Hnothex & _).
  split; [exact Hinit|]. split; [exact Hstored|].
  apply Hnothex. vm_compute. reflexivity.
Defined.

(** * Further properties of the module *)

(** ** The validator *)

(** X1. A pair returned by [validate_radix_and_alphabet] has a radix in
    [2, 65536] equal to the length of the alphabet, and validating the
    returned pair again returns it unchanged (as [encode_int_r] does on
    every call). *)
Theorem X1_validate_fixed_point (radix : option Z) (alphabet : option str)
    (r : Z) (a : str) :
  validate_radix_and_alphabet radix alphabet = Ok (r, a) ->
  2 <= r <= 65536 /\ len a = r
  /\ validate_radix_and_alphabet (Some r) (Some a) = Ok (r, a).
Proof.
  intros H. destruct (validate_Ok _ _ _ _ H) as [Hr Ha].
  split; [exact Hr|]. split; [exact Ha|]. by apply validate_valid.
Qed.

Lemma X1_validate_fixed_point_witness :
  2 <= 26 <= 65536 /\ len (py "abcdefghijklmnopqrstuvwxyz") = 26
  /\ validate_radix_and_alphabet (Some 26) (Some (py "abcdefghijklmnopqrstuvwxyz"))
     = Ok (26, py "abcdefghijklmnopqrstuvwxyz").
Proof.
  apply (X1_validate_fixed_point None (Some (py "abcdefghijklmnopqrstuvwxyz"))).
  vm_compute. reflexivity.
Defined.

(** X2. When the validator returns, and what: with both arguments the
    radix must be in [2, 65536] and equal the length of the alphabet;
    with a radix only it must be in [2, 62] and the alphabet is that many
    characters of the default alphabet; with an alphabet only its length
    must be in [2, 65536] and is the radix; with neither the result is
    radix 10 and the decimal digits. *)
Theorem X2_validate_returns_iff (radix : option Z) (alphabet : option str)
    (r' : Z) (a' : str) :
  validate_radix_and_alphabet radix alphabet = Ok (r', a')
  <-> match radix, alphabet with
      | Some r, Some a => 2 <= r <= 65536 /\ len a = r /\ r' = r /\ a' = a
      | Some r, None =>
          2 <= r <= 62 /\ r' = r /\ a' = take (Z.to_nat r) DEFAULT_ALPHABET
      | None, Some a => 2 <= len a <= 65536 /\ r' = len a /\ a' = a
      | None, None => r' = 10 /\ a' = py "0123456789"
      end.
Proof.
  unfold validate_radix_and_alphabet, str_of, MAX_RADIX.
  change (2 ^ 16) with 65536. rewrite len_DEFAULT_ALPHABET.
  destruct radix as [r|], alphabet as [a|]; cbv zeta.
  - split.
    + repeat (case_if; try discriminate); rewrite ?bind_ret;
        repeat (case_if; try discriminate).
      intros [= <- <-]. zbool. split_and!; try done; lia.
    + intros (Hr & Ha & -> & ->).
      repeat (case_if; zbool; try lia); rewrite ?bind_ret;
        repeat (case_if; zbool; try lia); done.
  - split.
    + repeat (case_if; try discriminate); rewrite ?bind_ret;
        repeat (case_if; try discriminate).
      intros [= <- <-]. zbool. split_and!; try done; lia.
    + intros (Hr & -> & ->).
      repeat (case_if; zbool; try lia); rewrite ?bind_ret;
        repeat (case_if; zbool; try lia); try done.
  - split.
    + repeat (case_if; try discriminate); rewrite ?bind_ret;
        repeat (case_if; try discriminate).
      intros [= <- <-]. zbool. split_and!; try done; lia.
    + intros (Hr & -> & ->).
      repeat (case_if; zbool; try lia); rewrite ?bind_ret;
        repeat (case_if; zbool; try lia); done.
  - split.
    + intros H. vm_compute in H. injection H as <- <-. done.
    + intros [-> ->]. vm_compute. reflexivity.
Qed.

Lemma NoDup_take_of {A} (n : nat) (l : list A) : NoDup l -> NoDup (take n l).
Proof.
  intros H. rewrite <- (take_drop n l) in H.
  by apply stdpp.list_relations.list.NoDup_app in H as (? & _).
Qed.

Lemma validate_default (radix : option Z) (r : Z) (a : str) :
  validate_radix_and_alphabet radix None = Ok (r, a) ->
  a = take (Z.to_nat r) DEFAULT_ALPHABET.
Proof.
  unfold validate_radix_and_alphabet, str_of.
  destruct radix as [r0|]; cbv zeta;
    repeat (case_if; try discriminate); rewrite ?bind_ret;
    repeat (case_if; try discriminate); by intros [= <- <-].
Qed.

(** X3. Without a custom alphabet the instance always has an alphabet of
    pairwise distinct characters, so for every radix the constructor
    accepts, [decrypt (encrypt s)] returns [s] with no further condition
    on the alphabet. *)
Theorem X3_default_alphabet_roundtrip
    (AES_ECB_encrypt : bytes -> bytes -> bytes)
    (key tweak : str) (radix : option Z)
    (self : FF3Cipher.t) (tweakBytes : bytes) (s : str) :
  FF3Cipher.__init__ key tweak radix None = Ok self ->
  fromhex tweak = Ok tweakBytes ->
  len tweakBytes = 7 \/ len tweakBytes = 8 ->
  Forall (fun c => c ∈ self.(FF3Cipher.alphabet)) s ->
  self.(FF3Cipher.minLen) <= len s <= self.(FF3Cipher.maxLen) ->
  NoDup self.(FF3Cipher.alphabet)
  /\ exists ct,
       FF3Cipher.encrypt AES_ECB_encrypt self s = Ok ct
       /\ FF3Cipher.decrypt AES_ECB_encrypt self ct = Ok s.
Proof.
  intros Hinit Hhex Htl Hs Hn.
  destruct (init_Ok _ _ _ _ _ Hinit) as (Htw & Hv & Hmm).
  destruct (validate_Ok _ _ _ _ Hv) as [Hr Ha].
  assert (NoDup self.(FF3Cipher.alphabet)) as Hnd.
  { rewrite (validate_default _ _ _ Hv). apply NoDup_take_of. by_decide. }
  split; [exact Hnd|].
  destruct (encrypt_with_tweak_Ok AES_ECB_encrypt self tweak tweakBytes
              Hr Ha Hmm Hhex Htl s Hs Hn) as (ct & Henc & _ & Hdec).
  exists ct. unfold FF3Cipher.encrypt, FF3Cipher.decrypt. rewrite Htw.
  split; [done | by apply Hdec].
Qed.

Lemma X3_default_alphabet_roundtrip_witness :
  NoDup sample_instance36.(FF3Cipher.alphabet)
  /\ exists ct,
       FF3Cipher.encrypt sample_cipher sample_instance36 (py "abcdefghijklmnopqrstuvwxyz0123456789")
       = Ok ct
       /\ FF3Cipher.decrypt sample_cipher sample_instance36 ct
          = Ok (py "abcdefghijklmnopqrstuvwxyz0123456789").
Proof.
  apply (X3_default_alphabet_roundtrip sample_cipher sample_key sample_tweak56
           (Some 36) sample_instance36 [0xD8; 0xE7; 0x92; 0x0A; 0xFA; 0x33; 0x0A]).
  - vm_compute. reflexivity.
  - vm_compute. reflexivity.
  - left. vm_compute. reflexivity.
  - by_decide.
  - vm_compute. split; discriminate.
Defined.

(** ** The length bounds *)

Lemma length_bounds_all (radix : Z) :
  2 <= radix <= 65536 ->
  let '(minLen, maxLen) := minlen_and_maxlen radix in
  2 <= minLen <= 20 /\ 12 <= maxLen <= 192 /\ minLen <= maxLen
  /\ radix ^ (minLen - 1) < 1000000 <= radix ^ minLen
  /\ radix ^ (maxLen / 2) <= 2 ^ 96 < radix ^ (maxLen / 2 + 1)
  /\ minLen = minLen_formula radix /\ maxLen = maxLen_formula radix.
Proof.
  intros Hr.
  pose proof (minlen_and_maxlen_formula radix ltac:(lia)) as Hf.
  unfold minlen_and_maxlen, DOMAIN_MIN in *. injection Hf as Hmin Hmax.
  destruct (ceil_log_spec 1000000 radix) as (Hm0 & Hm & Hleast); try lia.
  destruct (floor_quot_log2_spec 96 radix) as (Hk0 & Hk & Hnext); try lia.
  set (m := ceil_log 1000000 radix) in *.
  set (k := floor_quot_log2 96 radix) in *.
  replace (2 * k / 2) with k by (rewrite Z.mul_comm, Z.div_mul; lia).
  assert (2 <= m) as Hm2.
  { destruct (Z.le_gt_cases 2 m) as [|Hlt]; [done|].
    assert (radix ^ m <= radix ^ 1) by (apply Z.pow_le_mono_r; lia).
    rewrite Z.pow_1_r in *. lia. }
  assert (m <= 20) as Hm20.
  { destruct (Z.le_gt_cases m 20) as [|Hgt]; [done|].
    pose proof (Hleast 20 ltac:(lia)).
    assert (2 ^ 20 <= radix ^ 20) by (apply Z.pow_le_mono_l; lia).
    change (2 ^ 20) with 1048576 in *. lia. }
  assert (6 <= k) as Hk6.
  { destruct (Z.le_gt_cases 6 k) as [|Hlt]; [done|].
    assert (radix ^ (k + 1) <= radix ^ 6) by (apply Z.pow_le_mono_r; lia).
    assert (radix ^ 6 <= 65536 ^ 6) by (apply Z.pow_le_mono_l; lia).
    change (65536 ^ 6) with (2 ^ 96) in *. lia. }
  assert (m <= 2 * k) as Hmk.
  { destruct (Z.le_gt_cases m (2 * k)) as [|Hgt]; [done|].
    pose proof (Hleast (2 * k) ltac:(lia)).
    assert (radix ^ (k + 1) <= radix ^ (2 * k))
      by (apply Z.pow_le_mono_r; lia).
    assert (1000000 < 2 ^ 96) by done. lia. }
  split_and!; try done; try lia.
  apply Hleast. lia.
Qed.

(** X4. For every radix in [2, 65536] the bounds satisfy
    [2 <= minLen <= 20], [12 <= maxLen <= 192] and [minLen <= maxLen];
    [minLen] is the least length whose domain has a million strings, and
    [maxLen / 2] is the greatest number of digits whose values fit 96
    bits; both are the formulas of the source read over the reals. *)
Theorem X4_length_bounds (radix : Z) :
  2 <= radix <= 65536 ->
  let '(minLen, maxLen) := minlen_and_maxlen radix in
  2 <= minLen <= 20 /\ 12 <= maxLen <= 192 /\ minLen <= maxLen
  /\ radix ^ (minLen - 1) < 1000000 <= radix ^ minLen
  /\ radix ^ (maxLen / 2) <= 2 ^ 96 < radix ^ (maxLen / 2 + 1)
  /\ minLen = minLen_formula radix /\ maxLen = maxLen_formula radix.
Proof. apply length_bounds_all. Qed.

Lemma X4_length_bounds_witness :
  let '(minLen, maxLen) := minlen_and_maxlen 1000 in
  2 <= minLen <= 20 /\ 12 <= maxLen <= 192 /\ minLen <= maxLen
  /\ 1000 ^ (minLen - 1) < 1000000 <= 1000 ^ minLen
  /\ 1000 ^ (maxLen / 2) <= 2 ^ 96 < 1000 ^ (maxLen / 2 + 1)
  /\ minLen = minLen_formula 1000 /\ maxLen = maxLen_formula 1000.
Proof. apply (X4_length_bounds 1000). lia. Defined.

(** ** The numeral codec *)

(** X5. [decode_int] returns exactly when every character of the string
    occurs in the alphabet, and then a value in [0, |alphabet|^|s|) (0 for
    the empty string); otherwise it raises the [ValueError] of
    [str.index], and no other exception. *)
Theorem X5_decode_int_returns_iff (s alphabet : str) :
  (Forall (fun c => c ∈ alphabet) s ->
   exists n, decode_int s alphabet = Ok n /\ 0 <= n < len alphabet ^ len s)
  /\ (~ Forall (fun c => c ∈ alphabet) s ->
      decode_int s alphabet = Raise (ValueError substring_not_found))
  /\ decode_int [] alphabet = Ok 0.
Proof.
  split; [|split; [apply decode_int_raises | reflexivity]].
  intros Hs. destruct s as [|c s].
  - exists 0. split; [reflexivity|]. unfold len. simpl. lia.
  - eexists. split; [by apply decode_int_lsf|].
    rewrite <- (len_map (digit alphabet) (c :: s)).
    apply undigits_bound; [|by apply map_digit_range].
    inversion Hs as [|? ? Hc _]; subst.
    destruct (digit_elem _ _ Hc) as (_ & ? & _). lia.
Qed.

Lemma undigits_zeros (r : Z) (k : nat) : undigits r (replicate k 0) = 0.
Proof.
  induction k as [|k IH]; [done|].
  cbn [replicate]. rewrite undigits_cons, IH. lia.
Qed.

Lemma undigits_trailing_zeros (r : Z) (ds : list Z) (k : nat) :
  undigits r (ds ++ replicate k 0) = undigits r ds.
Proof. rewrite undigits_app, undigits_zeros. lia. Qed.

Lemma len_replicate {A} (k : nat) (x : A) : len (replicate k x) = Z.of_nat k.
Proof. unfold len. by rewrite length_replicate. Qed.

(** For [n >= 0] the encoder writes every digit of [n], least significant
    first, and then pads with zero digits up to [length]. *)
Lemma encode_int_r_nonneg (n r length : Z) (alphabet : str) :
  2 <= r <= MAX_RADIX -> len alphabet = r -> 0 <= n ->
  exists ds,
    encode_int_r n r length (Some alphabet) = Ok (map (nth_char alphabet) ds)
    /\ Forall (fun d => 0 <= d < r) ds
    /\ undigits r ds = n
    /\ 1 <= len ds /\ length <= len ds.
Proof.
  intros Hr Ha Hn. unfold encode_int_r.
  rewrite validate_valid by done. rewrite bind_ret. cbv zeta.
  set (m := Z.to_nat (Z.log2 n)).
  assert (n < r ^ Z.of_nat (S m)) as Hlt.
  { apply Z.lt_le_trans with (2 ^ Z.of_nat (S m)).
    - destruct (Z.eq_dec n 0) as [->|]; [apply Z.pow_pos_nonneg; lia|].
      pose proof (Z.log2_spec n ltac:(lia)) as Hs.
      pose proof (Z.log2_nonneg n).
      replace (Z.of_nat (S m)) with (Z.succ (Z.log2 n)) by (unfold m; lia). lia.
    - apply Z.pow_le_mono_l. lia. }
  destruct (encode_loop_digits r alphabet m ltac:(lia) Ha m n [])
    as (j & n' & Hj & -> & Hn' & Hd).
  { lia. } { pose proof (Z.log2_nonneg n). unfold m. lia. }
  rewrite bind_ret. rewrite (getitem_nth_char alphabet n') by lia.
  rewrite bind_ret, app_nil_l.
  assert (Forall (fun d => 0 <= d < r) (digits r j n ++ [n'])) as Hrange.
  { apply Forall_app. split; [apply digits_range; lia|].
    constructor; [lia | constructor]. }
  assert (undigits r (digits r j n ++ [n']) = n) as Hval.
  { rewrite <- (undigits_trailing_zeros r _ (m - j)), <- app_assoc.
    cbn [app]. rewrite <- Hd, undigits_digits by lia.
    apply Z.mod_small. lia. }
  assert (len (map (nth_char alphabet) (digits r j n) ++ [nth_char alphabet n'])
          = Z.of_nat j + 1) as Hlen.
  { rewrite len_app, len_map. unfold len. rewrite length_digits. simpl. lia. }
  rewrite Hlen. destruct (Z.ltb_spec (Z.of_nat j + 1) length).
  - rewrite getitem_nth_char by lia. rewrite bind_ret. unfold ljust. rewrite Hlen.
    exists ((digits r j n ++ [n']) ++ replicate (Z.to_nat (length - (Z.of_nat j + 1))) 0).
    split; [|split; [|split]].
    + rewrite !map_app, map_replicate. done.
    + apply Forall_app. split; [done|]. apply Forall_replicate. lia.
    + by rewrite undigits_trailing_zeros.
    + rewrite !len_app, len_replicate. unfold len. rewrite length_digits.
      simpl. lia.
  - exists (digits r j n ++ [n']). split; [|split; [done|split; [done|]]].
    + by rewrite map_app.
    + rewrite len_app. unfold len. rewrite length_digits. simpl. lia.
Qed.

(** X6. For a validated radix and alphabet and every [n >= 0], whatever
    [length] is, [encode_int_r] returns a non-empty string over the
    alphabet of at least [length] characters: the digits of [n] are never
    truncated, only padded. When the characters of the alphabet are
    distinct, [decode_int] maps the string back to [n]. *)
Theorem X6_encode_int_r_never_truncates (n r length : Z) (alphabet : str) :
  2 <= r <= 65536 -> len alphabet = r -> 0 <= n ->
  exists s,
    encode_int_r n r length (Some alphabet) = Ok s
    /\ Forall (fun c => c ∈ alphabet) s
    /\ 1 <= len s /\ length <= len s
    /\ (NoDup alphabet -> decode_int s alphabet = Ok n).
Proof.
  intros Hr Ha Hn.
  destruct (encode_int_r_nonneg n r length alphabet Hr Ha Hn)
    as (ds & Henc & Hrange & Hval & H1 & Hl).
  exists (map (nth_char alphabet) ds). rewrite len_map.
  split; [done|]. split; [|split; [done|split; [done|]]].
  - apply map_nth_char_elem. by rewrite Ha.
  - intros Hnd. rewrite decode_int_lsf.
    + rewrite map_digit_nth_char by (done || by rewrite Ha). by rewrite Ha, Hval.
    + apply map_nth_char_elem. by rewrite Ha.
Qed.

Lemma X6_encode_int_r_never_truncates_witness :
  exists s,
    encode_int_r 1000 10 2 (Some (py "0123456789")) = Ok s
    /\ Forall (fun c => c ∈ py "0123456789") s
    /\ 1 <= len s /\ 2 <= len s
    /\ (NoDup (py "0123456789") -> decode_int s (py "0123456789") = Ok 1000).
Proof.
  apply X6_encode_int_r_never_truncates.
  - lia.
  - vm_compute. reflexivity.
  - lia.
Defined.

(** X7. Encoding the value of a non-empty string over a validated
    alphabet, at the length of the string, returns the string; the
    characters of the alphabet need not be distinct. *)
Theorem X7_encode_decode (s alphabet : str) (r : Z) :
  2 <= r <= 65536 -> len alphabet = r ->
  Forall (fun c => c ∈ alphabet) s -> 1 <= len s ->
  decode_int s alphabet
    ≫= (fun n => encode_int_r n r (len s) (Some alphabet)) = Ok s.
Proof.
  intros Hr Ha Hs Hlen. rewrite decode_int_lsf by done. rewrite bind_ret, Ha.
  by apply encode_decode.
Qed.

Lemma X7_encode_decode_witness :
  decode_int (py "abba0") (py "0ab")
    ≫= (fun n => encode_int_r n 3 (len (py "abba0")) (Some (py "0ab")))
  = Ok (py "abba0").
Proof.
  apply X7_encode_decode.
  - lia.
  - vm_compute. reflexivity.
  - by_decide.
  - vm_compute. discriminate.
Defined.

Lemma getitem_negative (alphabet : str) (i : Z) :
  i < 0 ->
  getitem alphabet i
  = if - len alphabet <=? i then Ok (nth_char alphabet (len alphabet + i))
    else Raise IndexError.
Proof.
  intros Hi. unfold getitem.
  destruct (Z.ltb_spec i 0); [|lia].
  destruct (Z.leb_spec (- len alphabet) i) as [Hin|Hout].
  - destruct (Z.leb_spec 0 (i + len alphabet)); [|lia].
    destruct (Z.ltb_spec (i + len alphabet) (len alphabet)); [|lia]. cbn [andb].
    destruct (lookup_lt_is_Some_2 alphabet (Z.to_nat (i + len alphabet)))
      as [c Hc].
    { unfold len in *. lia. }
    rewrite Hc. unfold nth_char.
    replace (len alphabet + i) with (i + len alphabet) by lia. by rewrite Hc.
  - destruct (Z.leb_spec 0 (i + len alphabet)); [lia|]. done.
Qed.

(** X8. A negative [n] is not rejected: the loop is skipped and [n]
    indexes the alphabet from its end. For [-radix <= n < 0] the result
    is the character at position [radix + n], padded to [length]; below
    [-radix] the call raises [IndexError]. *)
Theorem X8_encode_int_r_negative (n r length : Z) (alphabet : str) :
  2 <= r <= 65536 -> len alphabet = r -> n < 0 ->
  encode_int_r n r length (Some alphabet)
  = if - r <=? n
    then Ok (nth_char alphabet (r + n)
             :: replicate (Z.to_nat (length - 1)) (nth_char alphabet 0))
    else Raise IndexError.
Proof.
  intros Hr Ha Hn. unfold encode_int_r.
  rewrite validate_valid by done. rewrite bind_ret. cbv zeta.
  assert (encode_loop (Z.to_nat (Z.log2 n)) r alphabet n [] = Ok (n, [])) as ->.
  { destruct (Z.to_nat (Z.log2 n)); cbn [encode_loop]; rewrite Z.geb_leb;
      destruct (Z.leb_spec r n); (lia || done). }
  rewrite bind_ret. rewrite (getitem_negative alphabet n Hn), Ha.
  destruct (Z.leb_spec (- r) n) as [Hin|Hout]; [|done].
  rewrite bind_ret. cbn [app].
  change (len [nth_char alphabet (r + n)]) with 1.
  destruct (Z.ltb_spec 1 length).
  - rewrite getitem_nth_char by lia. rewrite bind_ret. unfold ljust.
    change (len [nth_char alphabet (r + n)]) with 1. done.
  - replace (Z.to_nat (length - 1)) with O by lia. done.
Qed.

Lemma X8_encode_int_r_negative_witness :
  encode_int_r (-1) 10 3 (Some (py "0123456789"))
  = if - 10 <=? -1
    then Ok (nth_char (py "0123456789") (10 + -1)
             :: replicate (Z.to_nat (3 - 1)) (nth_char (py "0123456789") 0))
    else Raise IndexError.
Proof.
  apply X8_encode_int_r_negative.
  - lia.
  - vm_compute. reflexivity.
  - lia.
Defined.

(** ** The round block and the tweak halves *)

Lemma from_bytes_snoc (b : bytes) (x : Z) :
  from_bytes (b ++ [x]) = from_bytes b * 256 + x.
Proof. unfold from_bytes. by rewrite foldl_snoc. Qed.

Lemma from_bytes_reverse (ds : list Z) :
  from_bytes (reverse ds) = undigits 256 ds.
Proof.
  induction ds as [|d ds IH]; [done|].
  rewrite reverse_cons, from_bytes_snoc, IH, undigits_cons. lia.
Qed.

Lemma from_bytes_to_bytes (n : Z) (k : nat) (b : bytes) :
  to_bytes n k = Ok b -> from_bytes b = n.
Proof.
  unfold to_bytes.
  destruct (Z.ltb_spec n 0); [discriminate|].
  destruct (Z.leb_spec (256 ^ Z.of_nat k) n); [discriminate|].
  intros [= <-]. rewrite from_bytes_reverse, to_bytes_little_digits.
  rewrite undigits_digits by lia. apply Z.mod_small. lia.
Qed.

(** X9. For a 4-byte half-tweak [W], a round index below 8 and a string
    [B] over the alphabet, [calculateP] returns a block of 16 bytes made
    of [W[0..2]], then [W[3] xor i], then the value of [B] (least
    significant digit first) as a 12-byte big-endian integer; it raises
    [OverflowError] as soon as that value does not fit 96 bits. *)
Theorem X9_calculateP_block (i : Z) (alphabet : str) (W : bytes) (B : str) :
  is_bytes W -> length W = 4%nat -> 0 <= i < 8 ->
  Forall (fun c => c ∈ alphabet) B ->
  (numeral_lsf alphabet B < 2 ^ 96 ->
   exists P,
     FF3Cipher.calculateP i alphabet W B = Ok P
     /\ length P = 16%nat /\ is_bytes P
     /\ take 3 P = take 3 W
     /\ P !! 3%nat = (fun w => Z.lxor w i) <$> W !! 3%nat
     /\ from_bytes (drop 4 P) = numeral_lsf alphabet B)
  /\ (2 ^ 96 <= numeral_lsf alphabet B ->
      FF3Cipher.calculateP i alphabet W B = Raise OverflowError).
Proof.
  intros HW Hlen Hi HB.
  destruct (length_4 W Hlen) as (w0 & w1 & w2 & w3 & ->).
  rewrite calculateP_eq by done.
  rewrite (decode_int_lsf B alphabet HB), bind_ret, <- numeral_lsf_undigits.
  set (n := numeral_lsf alphabet B).
  assert (0 <= n) as Hn0.
  { unfold n. rewrite numeral_lsf_undigits. destruct B as [|c B]; [done|].
    apply undigits_bound; [|by apply map_digit_range].
    inversion HB as [|? ? Hc _]; subst.
    destruct (digit_elem _ _ Hc) as (_ & ? & _). lia. }
  split.
  - intros Hfit.
    destruct (to_bytes_Ok n 12) as (bb & Hbb & Hbytes & Hl).
    { change (256 ^ Z.of_nat 12) with (2 ^ 96). lia. }
    rewrite Hbb, bind_ret. unfold len, BLOCK_SIZE. rewrite Hl.
    change (Z.to_nat (16 - Z.of_nat 12)) with 4%nat. cbn [take].
    eexists. split; [reflexivity|].
    apply is_bytes_cons in HW as [H0 HW]. apply is_bytes_cons in HW as [H1 HW].
    apply is_bytes_cons in HW as [H2 HW]. apply is_bytes_cons in HW as [H3 _].
    split_and!.
    + cbn [app length]. rewrite Hl. done.
    + cbn [app]. repeat (apply is_bytes_cons; split; [done|]).
      apply is_bytes_cons. split; [by apply lxor_byte | done].
    + done.
    + done.
    + cbn [app drop]. by apply (from_bytes_to_bytes n 12).
  - intros Hbig. unfold to_bytes.
    destruct (Z.ltb_spec n 0); [lia|].
    change (256 ^ Z.of_nat 12) with (2 ^ 96).
    destruct (Z.leb_spec (2 ^ 96) n); [done | lia].
Qed.

Lemma X9_calculateP_block_witness :
  (numeral_lsf (py "0123456789") (py "567890000") < 2 ^ 96 ->
   exists P,
     FF3Cipher.calculateP 0 (py "0123456789") [0xFA; 0x33; 0x0A; 0x73]
       (py "567890000") = Ok P
     /\ length P = 16%nat /\ is_bytes P
     /\ take 3 P = take 3 [0xFA; 0x33; 0x0A; 0x73]
     /\ P !! 3%nat = (fun w => Z.lxor w 0) <$> [0xFA; 0x33; 0x0A; 0x73] !! 3%nat
     /\ from_bytes (drop 4 P) = numeral_lsf (py "0123456789") (py "567890000"))
  /\ (2 ^ 96 <= numeral_lsf (py "0123456789") (py "567890000") ->
      FF3Cipher.calculateP 0 (py "0123456789") [0xFA; 0x33; 0x0A; 0x73]
        (py "567890000") = Raise OverflowError).
Proof.
  apply X9_calculateP_block.
  - repeat constructor; lia.
  - reflexivity.
  - lia.
  - by_decide.
Defined.

Lemma tweak_halves_56 (t0 t1 t2 t3 t4 t5 t6 : Z) :
  is_bytes [t0; t1; t2; t3; t4; t5; t6] ->
  exists Tr,
    FF3Cipher.tweak_halves [t0; t1; t2; t3; t4; t5; t6]
    = Ok ([t0; t1; t2; Z.land t3 0xF0], Tr)
    /\ is_bytes Tr /\ length Tr = 4%nat.
Proof.
  intros Hb. unfold FF3Cipher.tweak_halves.
  change (len [t0; t1; t2; t3; t4; t5; t6] =? TWEAK_LEN) with false.
  change (len [t0; t1; t2; t3; t4; t5; t6] =? TWEAK_LEN_NEW) with true.
  cbv iota. cbn [take drop]. cbv zeta.
  apply is_bytes_cons in Hb as [H0 Hb]. apply is_bytes_cons in Hb as [H1 Hb].
  apply is_bytes_cons in Hb as [H2 Hb]. apply is_bytes_cons in Hb as [H3 Hb].
  apply is_bytes_cons in Hb as [H4 Hb]. apply is_bytes_cons in Hb as [H5 Hb].
  apply is_bytes_cons in Hb as [H6 _].
  change (getitem [t0; t1; t2; t3] 3) with (Ok t3). rewrite bind_ret.
  rewrite setitem_Ok by (simpl; lia || apply land_byte_r; lia).
  rewrite bind_ret.
  destruct (to_bytes_Ok (Z.shiftl (from_bytes [t4; t5; t6]) 4) 4)
    as (Tr & -> & HTr & HlTr).
  { rewrite Z.shiftl_mul_pow2 by lia. unfold from_bytes. cbn [foldl].
    change (256 ^ Z.of_nat 4) with 4294967296. change (2 ^ 4) with 16. lia. }
  rewrite bind_ret.
  change (getitem [t0; t1; t2; t3; t4; t5; t6] 6) with (Ok t6).
  rewrite bind_ret.
  assert (0 <= Z.land (Z.shiftl t6 4) 240 < 256) as Hlast.
  { apply land_byte_r; [|lia]. apply Z.shiftl_nonneg. lia. }
  rewrite setitem_Ok by (done || lia). rewrite bind_ret.
  eexists. split; [reflexivity|]. split.
  - by apply Forall_insert.
  - by rewrite length_insert.
Qed.

(** X10. The tweak split returns exactly for 7 or 8 tweak bytes, and then
    two halves of 4 bytes each. Eight bytes are cut in the middle
    unchanged. Of seven bytes the left half is bytes 0..3 with the low
    nibble of byte 3 cleared. Any other number of bytes raises the
    tweak-length error. *)
Theorem X10_tweak_halves_shape (tweakBytes : bytes) :
  is_bytes tweakBytes ->
  (len tweakBytes = 8 ->
   FF3Cipher.tweak_halves tweakBytes
   = Ok (take 4 tweakBytes, drop 4 tweakBytes))
  /\ (len tweakBytes = 7 ->
      exists Tl Tr,
        FF3Cipher.tweak_halves tweakBytes = Ok (Tl, Tr)
        /\ take 3 Tl = take 3 tweakBytes
        /\ Tl !! 3%nat = (fun b => Z.land b 0xF0) <$> tweakBytes !! 3%nat)
  /\ (len tweakBytes <> 7 -> len tweakBytes <> 8 ->
      FF3Cipher.tweak_halves tweakBytes
      = Raise (ValueError (tweak_length (len tweakBytes))))
  /\ (forall Tl Tr,
        FF3Cipher.tweak_halves tweakBytes = Ok (Tl, Tr) ->
        (len tweakBytes = 7 \/ len tweakBytes = 8)
        /\ is_bytes Tl /\ length Tl = 4%nat /\ is_bytes Tr /\ length Tr = 4%nat).
Proof.
  intros Hb. split_and!.
  - intros H8. unfold FF3Cipher.tweak_halves. rewrite H8. done.
  - intros H7.
    destruct (length_7 tweakBytes) as (t0 & t1 & t2 & t3 & t4 & t5 & t6 & ->).
    { unfold len in H7. lia. }
    destruct (tweak_halves_56 _ _ _ _ _ _ _ Hb) as (Tr & -> & _).
    eexists _, _. split; [reflexivity|]. done.
  - intros H7 H8. unfold FF3Cipher.tweak_halves, TWEAK_LEN, TWEAK_LEN_NEW.
    destruct (Z.eqb_spec (len tweakBytes) 8); [done|].
    destruct (Z.eqb_spec (len tweakBytes) 7); done.
  - intros Tl Tr H.
    assert (len tweakBytes = 7 \/ len tweakBytes = 8) as Hl.
    { unfold FF3Cipher.tweak_halves, TWEAK_LEN, TWEAK_LEN_NEW in H.
      destruct (Z.eqb_spec (len tweakBytes) 8); [by right|].
      destruct (Z.eqb_spec (len tweakBytes) 7); [by left | discriminate]. }
    split; [done|].
    destruct (tweak_halves_Ok tweakBytes Hb) as (Tl' & Tr' & H' & ?).
    { unfold len in Hl. lia. }
    rewrite H in H'. by injection H' as <- <-.
Qed.

Lemma X10_tweak_halves_shape_witness :
  let tweakBytes := [0xD8; 0xE7; 0x92; 0x0A; 0xFA; 0x33; 0x0A] in
  (len tweakBytes = 8 ->
   FF3Cipher.tweak_halves tweakBytes
   = Ok (take 4 tweakBytes, drop 4 tweakBytes))
  /\ (len tweakBytes = 7 ->
      exists Tl Tr,
        FF3Cipher.tweak_halves tweakBytes = Ok (Tl, Tr)
        /\ take 3 Tl = take 3 tweakBytes
        /\ Tl !! 3%nat = (fun b => Z.land b 0xF0) <$> tweakBytes !! 3%nat)
  /\ (len tweakBytes <> 7 -> len tweakBytes <> 8 ->
      FF3Cipher.tweak_halves tweakBytes
      = Raise (ValueError (tweak_length (len tweakBytes))))
  /\ (forall Tl Tr,
        FF3Cipher.tweak_halves tweakBytes = Ok (Tl, Tr) ->
        (len tweakBytes = 7 \/ len tweakBytes = 8)
        /\ is_bytes Tl /\ length Tl = 4%nat /\ is_bytes Tr /\ length Tr = 4%nat).
Proof.
  apply (X10_tweak_halves_shape [0xD8; 0xE7; 0x92; 0x0A; 0xFA; 0x33; 0x0A]).
  repeat constructor; lia.
Defined.

(** ** The Feistel rounds, backwards *)

Section RoundsBackwards.
Variable AES_ECB_encrypt : bytes -> bytes -> bytes.
Variable self : FF3Cipher.t.
Variables u v : Z.
Variables Tl Tr : bytes.

Hypothesis radix_range : 2 <= self.(FF3Cipher.radix) <= MAX_RADIX.
Hypothesis alphabet_len : len self.(FF3Cipher.alphabet) = self.(FF3Cipher.radix).
Hypothesis split_point : 1 <= v <= u.
Hypothesis block_fits : self.(FF3Cipher.radix) ^ u <= 2 ^ 96.
Hypothesis Tl_bytes : is_bytes Tl /\ length Tl = 4%nat.
Hypothesis Tr_bytes : is_bytes Tr /\ length Tr = 4%nat.

Let r := self.(FF3Cipher.radix).
Let alphabet := self.(FF3Cipher.alphabet).
Let enc := FF3Cipher.encrypt_round AES_ECB_encrypt self u v Tl Tr (r ^ u) (r ^ v).
Let dec := FF3Cipher.decrypt_round AES_ECB_encrypt self u v Tl Tr (r ^ u) (r ^ v).

(** An encryption round undoes the decryption round of the same index. *)
Lemma encrypt_decrypt_round (i : Z) (A B : str) (st : str * str) :
  NoDup alphabet -> 0 <= i < 8 -> halves alphabet u v (i + 1) (A, B) ->
  dec (A, B) i = Ok st -> enc st i = Ok (A, B).
Proof.
  intros Hnd Hi Hst.
  assert (exists m W,
    (if i mod 2 =? 0 then (u, Tr) else (v, Tl)) = (m, W)
    /\ (forall c, (if i mod 2 =? 0 then c mod r ^ u else c mod r ^ v)
                  = c mod r ^ m)
    /\ v <= m <= u /\ is_bytes W /\ length W = 4%nat
    /\ over alphabet (u + v - m) A /\ over alphabet m B)
    as (m & W & Hside & Hmod & Hm & HW & HlW & HA & HB).
  { unfold halves in Hst. rewrite parity_succ in Hst.
    destruct Tl_bytes, Tr_bytes.
    destruct (i mod 2 =? 0); cbn [negb fst snd] in Hst; destruct Hst.
    - exists u, Tr. replace (u + v - u) with v by lia.
      split_and!; try done; lia.
    - exists v, Tl. replace (u + v - v) with u by lia.
      split_and!; try done; lia. }
  assert (len alphabet ^ len A <= 2 ^ 96) as Hfit.
  { destruct HA as [_ ->]. unfold alphabet. rewrite alphabet_len.
    transitivity (self.(FF3Cipher.radix) ^ u); [|done].
    apply Z.pow_le_mono_r; lia. }
  unfold dec, FF3Cipher.decrypt_round. rewrite Hside.
  destruct (calculateP_Ok i alphabet W A) as (P & HP); try done.
  { unfold alphabet. rewrite alphabet_len. lia. }
  { apply HA. }
  fold alphabet r. rewrite HP, bind_ret. cbv zeta.
  destruct HB as [HB1 HB2].
  rewrite (decode_int_lsf B alphabet HB1), bind_ret, Hmod.
  set (y := from_bytes (reverse_string
              (AES_ECB_encrypt (FF3Cipher.aesCipher self) (reverse_string P)))).
  unfold alphabet at 1. rewrite alphabet_len. fold r alphabet.
  set (dB := undigits r (map (digit alphabet) B)).
  assert (0 <= dB < r ^ m) as HdB.
  { unfold dB. rewrite <- HB2, <- (len_map (digit alphabet) B).
    apply undigits_bound; [unfold r; lia|].
    unfold r, alphabet. rewrite <- alphabet_len. by apply map_digit_range. }
  assert (0 < r ^ m) by (apply Z.pow_pos_nonneg; unfold r; lia).
  rewrite encode_int_r_digits; try done; try lia.
  2:{ by apply Z.mod_pos_bound. }
  rewrite bind_ret. intros [= <-].
  unfold enc, FF3Cipher.encrypt_round.
  rewrite Hside. fold alphabet r. rewrite HP, bind_ret. cbv zeta. fold y.
  rewrite decode_int_lsf.
  2:{ apply map_nth_char_elem. unfold alphabet. rewrite alphabet_len.
      apply digits_range. unfold r. lia. }
  rewrite bind_ret, Hmod.
  unfold alphabet at 1. rewrite alphabet_len. fold r alphabet.
  rewrite map_digit_nth_char; [|done|].
  2:{ unfold alphabet. rewrite alphabet_len. apply digits_range. unfold r. lia. }
  rewrite undigits_digits by (unfold r; lia). rewrite Z2Nat.id by lia.
  rewrite Z.mod_mod by lia. rewrite Zplus_mod_idemp_l.
  replace (dB - y + y) with dB by lia. rewrite Z.mod_small by done.
  rewrite <- HB2. unfold dB. rewrite encode_decode; try done. lia.
Qed.

Lemma decrypt_rounds_back (k : nat) (i : Z) (st : str * str) :
  0 <= i -> i + Z.of_nat k <= 8 -> halves alphabet u v (i + Z.of_nat k) st ->
  NoDup alphabet ->
  exists st',
    for_in (reverse (seqZ i (Z.of_nat k))) st dec = Ok st'
    /\ halves alphabet u v i st'
    /\ for_in (seqZ i (Z.of_nat k)) st' enc = Ok st.
Proof.
  intros Hi Hk Hst Hnd. revert i st Hi Hk Hst.
  induction k as [|k IH]; intros i st Hi Hk Hst.
  - exists st. rewrite Z.add_0_r in Hst. done.
  - rewrite seqZ_cons by lia.
    replace (Z.pred (Z.of_nat (S k))) with (Z.of_nat k) by lia.
    rewrite reverse_cons, for_in_app.
    destruct (IH (Z.succ i) st) as ([A B] & Hrun & Hmid & Hback); try lia.
    { by replace (Z.succ i + Z.of_nat k) with (i + Z.of_nat (S k)) by lia. }
    rewrite Hrun, bind_ret. cbn [for_in].
    replace (Z.succ i) with (i + 1) in Hmid by lia.
    destruct (decrypt_round_Ok AES_ECB_encrypt self u v Tl Tr radix_range
                alphabet_len split_point block_fits Tl_bytes Tr_bytes
                i A B ltac:(lia) Hmid) as (C & HC & Hend).
    fold r in HC. fold dec in HC. rewrite HC, bind_ret.
    exists (C, A). split; [done|]. split; [done|].
    rewrite (encrypt_decrypt_round i A B (C, A)) by (done || lia).
    by rewrite bind_ret.
Qed.

(** A character outside the alphabet stops the first decryption round,
    round 7. *)
Lemma decrypt_round_7_raises (A B : str) :
  len A = u -> len B = v ->
  ~ Forall (fun c => c ∈ alphabet) (A ++ B) ->
  dec (A, B) 7 = Raise (ValueError substring_not_found).
Proof.
  intros HlA HlB Hbad. unfold dec, FF3Cipher.decrypt_round.
  change (7 mod 2 =? 0) with false. cbv iota. fold alphabet r.
  destruct Tl_bytes as [HTl HlTl].
  destruct (decide (Forall (fun c => c ∈ alphabet) A)) as [HA|HA].
  - destruct (calculateP_Ok 7 alphabet Tl A) as (P & ->); try done.
    { unfold alphabet. rewrite alphabet_len. lia. }
    { rewrite HlA. unfold alphabet. by rewrite alphabet_len. }
    rewrite bind_ret. cbv zeta.
    rewrite decode_int_raises; [done|].
    intros HB. apply Hbad. by apply Forall_app.
  - by rewrite calculateP_raises.
Qed.
End RoundsBackwards.

(** ** The engine, backwards *)

Section EngineBackwards.
Variable AES_ECB_encrypt : bytes -> bytes -> bytes.
Variable self : FF3Cipher.t.
Variables (tweak : str) (tweakBytes : bytes).

Hypothesis radix_range : 2 <= self.(FF3Cipher.radix) <= MAX_RADIX.
Hypothesis alphabet_len : len self.(FF3Cipher.alphabet) = self.(FF3Cipher.radix).
Hypothesis bounds :
  minlen_and_maxlen self.(FF3Cipher.radix)
  = (self.(FF3Cipher.minLen), self.(FF3Cipher.maxLen)).
Hypothesis tweak_hex : fromhex tweak = Ok tweakBytes.
Hypothesis tweak_len : len tweakBytes = 7 \/ len tweakBytes = 8.

Let alphabet := self.(FF3Cipher.alphabet).

Lemma encrypt_decrypt_with_tweak (s : str) :
  Forall (fun c => c ∈ alphabet) s ->
  self.(FF3Cipher.minLen) <= len s <= self.(FF3Cipher.maxLen) ->
  NoDup alphabet ->
  exists pt,
    FF3Cipher.decrypt_with_tweak AES_ECB_encrypt self s tweak = Ok pt
    /\ over alphabet (len s) pt
    /\ FF3Cipher.encrypt_with_tweak AES_ECB_encrypt self pt tweak = Ok s.
Proof.
  intros Hs Hn Hnd.
  destruct (split_bounds self radix_range bounds _ Hn) as (Huv & Hfit & Hu).
  destruct (tweak_halves_Ok tweakBytes) as (Tl & Tr & HT & HTl & HlTl & HTr & HlTr).
  { by apply (fromhex_is_bytes tweak). }
  { unfold len in tweak_len. lia. }
  set (u := FF3Cipher.ceil_half (len s)) in *.
  set (v := len s - u) in *.
  destruct (decrypt_rounds_back AES_ECB_encrypt self u v Tl Tr radix_range
              alphabet_len Huv Hfit (conj HTl HlTl) (conj HTr HlTr)
              8 0 (take (Z.to_nat u) s, drop (Z.to_nat u) s))
    as ([A B] & Hrun & Hend & Hback); try lia; try done.
  { pose proof (split_halves self radix_range bounds s Hs Hn) as H.
    fold u v in H. exact H. }
  assert (halves alphabet u v 8 (A, B)) as Hend' by exact Hend.
  destruct (join_halves self u v A B ltac:(lia) Hend') as (Hout & Htake & Hdrop).
  replace (u + v) with (len s) in Hout by (unfold v; lia).
  exists (A ++ B). split; [|split; [done|]].
  - unfold FF3Cipher.decrypt_with_tweak.
    rewrite tweak_hex, bind_ret. cbv zeta.
    rewrite length_guard by done. rewrite (tweak_guard _ tweak_len).
    rewrite HT, bind_ret. fold u v. rewrite range_rounds, Hrun. done.
  - unfold FF3Cipher.encrypt_with_tweak.
    rewrite tweak_hex, bind_ret. cbv zeta.
    destruct Hout as [_ Hlen]. rewrite Hlen.
    rewrite length_guard by done. rewrite (tweak_guard _ tweak_len).
    rewrite HT, bind_ret. fold u v. rewrite Htake, Hdrop.
    rewrite range_rounds, Hback, bind_ret. by rewrite take_drop.
Qed.

Lemma decrypt_with_tweak_bad_char (s : str) :
  ~ Forall (fun c => c ∈ alphabet) s ->
  self.(FF3Cipher.minLen) <= len s <= self.(FF3Cipher.maxLen) ->
  FF3Cipher.decrypt_with_tweak AES_ECB_encrypt self s tweak
  = Raise (ValueError substring_not_found).
Proof.
  intros Hs Hn.
  destruct (split_bounds self radix_range bounds _ Hn) as (Huv & Hfit & Hu).
  destruct (tweak_halves_Ok tweakBytes) as (Tl & Tr & HT & HTl & HlTl & HTr & HlTr).
  { by apply (fromhex_is_bytes tweak). }
  { unfold len in tweak_len. lia. }
  unfold FF3Cipher.decrypt_with_tweak.
  rewrite tweak_hex, bind_ret. cbv zeta.
  rewrite length_guard by done. rewrite (tweak_guard _ tweak_len).
  rewrite HT, bind_ret.
  change (reverse (range NUM_ROUNDS)) with [7; 6; 5; 4; 3; 2; 1; 0].
  rewrite for_in_cons.
  rewrite (decrypt_round_7_raises AES_ECB_encrypt self _ _ Tl Tr); try done.
  - by apply len_take.
  - apply len_drop. lia.
  - by rewrite take_drop.
Qed.

Lemma decrypt_with_tweak_bad_length (s : str) :
  ~ self.(FF3Cipher.minLen) <= len s <= self.(FF3Cipher.maxLen) ->
  FF3Cipher.decrypt_with_tweak AES_ECB_encrypt self s tweak
  = Raise (ValueError (message_length (len s) self.(FF3Cipher.minLen)
                                      self.(FF3Cipher.maxLen))).
Proof.
  intros Hn. unfold FF3Cipher.decrypt_with_tweak.
  rewrite tweak_hex, bind_ret. cbv zeta. rewrite Z.gtb_ltb.
  destruct (Z.ltb_spec (len s) (FF3Cipher.minLen self)); [done|].
  destruct (Z.ltb_spec (FF3Cipher.maxLen self) (len s)); [done|]. lia.
Qed.
End EngineBackwards.

(** ** The cipher: more properties *)

(** X11. The tweak given to [encrypt_with_tweak] and [decrypt_with_tweak]
    replaces the stored one: whatever tweak the instance was built with,
    even one that is not hexadecimal, a call with the hexadecimal text of
    7 or 8 bytes encrypts, and decrypting with the same tweak returns the
    plaintext. *)
Theorem X11_with_tweak_roundtrip (AES_ECB_encrypt : bytes -> bytes -> bytes)
    (key stored tweak : str) (radix : option Z) (alphabet : option str)
    (self : FF3Cipher.t) (tweakBytes : bytes) (s : str) :
  FF3Cipher.__init__ key stored radix alphabet = Ok self ->
  NoDup self.(FF3Cipher.alphabet) ->
  fromhex tweak = Ok tweakBytes ->
  len tweakBytes = 7 \/ len tweakBytes = 8 ->
  Forall (fun c => c ∈ self.(FF3Cipher.alphabet)) s ->
  self.(FF3Cipher.minLen) <= len s <= self.(FF3Cipher.maxLen) ->
  exists ct,
    FF3Cipher.encrypt_with_tweak AES_ECB_encrypt self s tweak = Ok ct
    /\ FF3Cipher.decrypt_with_tweak AES_ECB_encrypt self ct tweak = Ok s.
Proof.
  intros Hinit Hnd Hhex Htl Hs Hn.
  destruct (init_Ok _ _ _ _ _ Hinit) as (_ & Hv & Hmm).
  destruct (validate_Ok _ _ _ _ Hv) as [Hr Ha].
  destruct (encrypt_with_tweak_Ok AES_ECB_encrypt self tweak tweakBytes
              Hr Ha Hmm Hhex Htl s Hs Hn) as (ct & Henc & _ & Hdec).
  exists ct. split; [done | by apply Hdec].
Qed.

Lemma X11_with_tweak_roundtrip_witness :
  exists ct,
    FF3Cipher.encrypt_with_tweak sample_cipher
      (with_tweak sample_instance (py "not a tweak")) sample_plaintext
      sample_tweak56 = Ok ct
    /\ FF3Cipher.decrypt_with_tweak sample_cipher
         (with_tweak sample_instance (py "not a tweak")) ct sample_tweak56
       = Ok sample_plaintext.
Proof.
  apply (X11_with_tweak_roundtrip sample_cipher sample_key (py "not a tweak")
           sample_tweak56 None None _ [0xD8; 0xE7; 0x92; 0x0A; 0xFA; 0x33; 0x0A]).
  - vm_compute. reflexivity.
  - by_decide.
  - vm_compute. reflexivity.
  - left. vm_compute. reflexivity.
  - by_decide.
  - vm_compute. split; discriminate.
Defined.

(** X12. Encryption also undoes decryption: for an instance with distinct
    alphabet characters and a tweak of 7 or 8 bytes, and every string [c]
    over the alphabet of accepted length, [decrypt c] returns a string of
    the same length over the alphabet and [encrypt] of it returns [c]. So
    [encrypt] reaches every string of each accepted length. *)
Theorem X12_encrypt_decrypt (AES_ECB_encrypt : bytes -> bytes -> bytes)
    (key tweak : str) (radix : option Z) (alphabet : option str)
    (self : FF3Cipher.t) (tweakBytes : bytes) (c : str) :
  FF3Cipher.__init__ key tweak radix alphabet = Ok self ->
  NoDup self.(FF3Cipher.alphabet) ->
  fromhex tweak = Ok tweakBytes ->
  len tweakBytes = 7 \/ len tweakBytes = 8 ->
  Forall (fun x => x ∈ self.(FF3Cipher.alphabet)) c ->
  self.(FF3Cipher.minLen) <= len c <= self.(FF3Cipher.maxLen) ->
  exists pt,
    FF3Cipher.decrypt AES_ECB_encrypt self c = Ok pt
    /\ length pt = length c
    /\ Forall (fun x => x ∈ self.(FF3Cipher.alphabet)) pt
    /\ FF3Cipher.encrypt AES_ECB_encrypt self pt = Ok c.
Proof.
  intros Hinit Hnd Hhex Htl Hs Hn.
  destruct (init_Ok _ _ _ _ _ Hinit) as (Htw & Hv & Hmm).
  destruct (validate_Ok _ _ _ _ Hv) as [Hr Ha].
  destruct (encrypt_decrypt_with_tweak AES_ECB_encrypt self tweak tweakBytes
              Hr Ha Hmm Hhex Htl c Hs Hn Hnd) as (pt & Hdec & [Hpt Hl] & Henc).
  exists pt. unfold FF3Cipher.encrypt, FF3Cipher.decrypt. rewrite Htw.
  unfold len in Hl. split_and!; try done. lia.
Qed.

Lemma X12_encrypt_decrypt_witness :
  exists pt,
    FF3Cipher.decrypt sample_cipher sample_instance sample_plaintext = Ok pt
    /\ length pt = length sample_plaintext
    /\ Forall (fun x => x ∈ sample_instance.(FF3Cipher.alphabet)) pt
    /\ FF3Cipher.encrypt sample_cipher sample_instance pt = Ok sample_plaintext.
Proof.
  apply (X12_encrypt_decrypt sample_cipher sample_key sample_tweak None None
           sample_instance [0xD8; 0xE7; 0x92; 0x0A; 0xFA; 0x33; 0x0A; 0x73]).
  - vm_compute. reflexivity.
  - by_decide.
  - vm_compute. reflexivity.
  - right. vm_compute. reflexivity.
  - by_decide.
  - vm_compute. split; discriminate.
Defined.

(** X13. Encryption is injective: under one instance with distinct
    alphabet characters and a tweak of 7 or 8 bytes, two different
    plaintexts over the alphabet of accepted lengths have different
    ciphertexts, whatever the block cipher. *)
Theorem X13_encrypt_injective (AES_ECB_encrypt : bytes -> bytes -> bytes)
    (key tweak : str) (radix : option Z) (alphabet : option str)
    (self : FF3Cipher.t) (tweakBytes : bytes) (s1 s2 : str) :
  FF3Cipher.__init__ key tweak radix alphabet = Ok self ->
  NoDup self.(FF3Cipher.alphabet) ->
  fromhex tweak = Ok tweakBytes ->
  len tweakBytes = 7 \/ len tweakBytes = 8 ->
  Forall (fun c => c ∈ self.(FF3Cipher.alphabet)) s1 ->
  self.(FF3Cipher.minLen) <= len s1 <= self.(FF3Cipher.maxLen) ->
  Forall (fun c => c ∈ self.(FF3Cipher.alphabet)) s2 ->
  self.(FF3Cipher.minLen) <= len s2 <= self.(FF3Cipher.maxLen) ->
  s1 <> s2 ->
  exists c1 c2,
    FF3Cipher.encrypt AES_ECB_encrypt self s1 = Ok c1
    /\ FF3Cipher.encrypt AES_ECB_encrypt self s2 = Ok c2
    /\ c1 <> c2.
Proof.
  intros Hinit Hnd Hhex Htl Hs1 Hn1 Hs2 Hn2 Hne.
  destruct (init_Ok _ _ _ _ _ Hinit) as (Htw & Hv & Hmm).
  destruct (validate_Ok _ _ _ _ Hv) as [Hr Ha].
  destruct (encrypt_with_tweak_Ok AES_ECB_encrypt self tweak tweakBytes
              Hr Ha Hmm Hhex Htl s1 Hs1 Hn1) as (c1 & Henc1 & _ & Hdec1).
  destruct (encrypt_with_tweak_Ok AES_ECB_encrypt self tweak tweakBytes
              Hr Ha Hmm Hhex Htl s2 Hs2 Hn2) as (c2 & Henc2 & _ & Hdec2).
  exists c1, c2. unfold FF3Cipher.encrypt. rewrite Htw.
  split; [done|]. split; [done|].
  intros ->. specialize (Hdec1 Hnd). specialize (Hdec2 Hnd). congruence.
Qed.

Lemma X13_encrypt_injective_witness :
  exists c1 c2,
    FF3Cipher.encrypt sample_cipher sample_instance (py "000000") = Ok c1
    /\ FF3Cipher.encrypt sample_cipher sample_instance (py "000001") = Ok c2
    /\ c1 <> c2.
Proof.
  apply (X13_encrypt_injective sample_cipher sample_key sample_tweak None None
           sample_instance [0xD8; 0xE7; 0x92; 0x0A; 0xFA; 0x33; 0x0A; 0x73]).
  - vm_compute. reflexivity.
  - by_decide.
  - vm_compute. reflexivity.
  - right. vm_compute. reflexivity.
  - by_decide.
  - vm_compute. split; discriminate.
  - by_decide.
  - vm_compute. split; discriminate.
  - discriminate.
Defined.

(** X14. [decrypt] raises under the same conditions as [encrypt]: for an
    instance whose stored tweak is the hexadecimal text of 7 or 8 bytes,
    exactly when the length of the ciphertext is out of range or one of
    its characters does not occur in the alphabet; the first raises the
    message-length error, the second the [index] error of the codec, in
    round 7, the first round of decryption. *)
Theorem X14_decrypt_raises_iff (AES_ECB_encrypt : bytes -> bytes -> bytes)
    (key tweak : str) (radix : option Z) (alphabet : option str)
    (self : FF3Cipher.t) (tweakBytes : bytes) (ciphertext : str) :
  FF3Cipher.__init__ key tweak radix alphabet = Ok self ->
  fromhex self.(FF3Cipher.tweak) = Ok tweakBytes ->
  len tweakBytes = 7 \/ len tweakBytes = 8 ->
  let out_of_range :=
    len ciphertext < self.(FF3Cipher.minLen)
    \/ len ciphertext > self.(FF3Cipher.maxLen) in
  let foreign := Exists (fun c => c ∉ self.(FF3Cipher.alphabet)) ciphertext in
  let call := FF3Cipher.decrypt AES_ECB_encrypt self ciphertext in
  (raises call <-> out_of_range \/ foreign)
  /\ (out_of_range ->
      call = Raise (ValueError (message_length (len ciphertext)
                      self.(FF3Cipher.minLen) self.(FF3Cipher.maxLen))))
  /\ (~ out_of_range -> foreign ->
      call = Raise (ValueError substring_not_found)).
Proof.
  intros Hinit Hhex Htl out_of_range foreign call.
  destruct (init_Ok _ _ _ _ _ Hinit) as (Htw & Hv & Hmm).
  destruct (validate_Ok _ _ _ _ Hv) as [Hr Ha].
  assert (out_of_range ->
          call = Raise (ValueError (message_length (len ciphertext)
                          self.(FF3Cipher.minLen) self.(FF3Cipher.maxLen))))
    as Hlen.
  { intros Hout. unfold call, FF3Cipher.decrypt.
    apply (decrypt_with_tweak_bad_length AES_ECB_encrypt self _ tweakBytes Hhex).
    unfold out_of_range in Hout. lia. }
  assert (~ out_of_range -> foreign ->
          call = Raise (ValueError substring_not_found)) as Hchar.
  { intros Hin Hf. unfold call, FF3Cipher.decrypt.
    apply (decrypt_with_tweak_bad_char AES_ECB_encrypt self _ tweakBytes
             Hr Ha Hmm Hhex Htl).
    - intros Hall. apply (Exists_not_Forall (fun c => c ∈ FF3Cipher.alphabet self)
                            ciphertext); done.
    - unfold out_of_range in Hin. lia. }
  split; [|split; done].
  split.
  - intros [e He].
    destruct (decide (self.(FF3Cipher.minLen) <= len ciphertext
                      <= self.(FF3Cipher.maxLen))) as [Hn|Hn].
    + right.
      destruct (decide (Forall (fun c => c ∈ FF3Cipher.alphabet self) ciphertext))
        as [Hs|Hs].
      * destruct (decrypt_with_tweak_Ok AES_ECB_encrypt self _ tweakBytes
                    Hr Ha Hmm Hhex Htl ciphertext Hs Hn) as (pt & Hdec & _).
        unfold call, FF3Cipher.decrypt in He. congruence.
      * by apply (not_Forall_Exists (fun c => c ∈ FF3Cipher.alphabet self)).
    + left. unfold out_of_range. lia.
  - intros [Hout|Hf].
    + eexists. by apply Hlen.
    + destruct (decide out_of_range) as [Hout|Hin].
      * eexists. by apply Hlen.
      * eexists. by apply Hchar.
Qed.

Lemma X14_decrypt_raises_iff_witness :
  FF3Cipher.decrypt sample_cipher sample_instance (py "1234567x9")
  = Raise (ValueError substring_not_found)
  /\ FF3Cipher.decrypt sample_cipher sample_instance (py "12345")
     = Raise (ValueError (message_length 5 6 56)).
Proof.
  pose proof (C := X14_decrypt_raises_iff sample_cipher sample_key sample_tweak
                None None sample_instance
                [0xD8; 0xE7; 0x92; 0x0A; 0xFA; 0x33; 0x0A; 0x73]).
  split.
  - apply (C (py "1234567x9")).
    + vm_compute. reflexivity.
    + vm_compute. reflexivity.
    + right. vm_compute. reflexivity.
    + vm_compute. intros [Hlt|Hgt]; [discriminate Hlt | discriminate Hgt].
    + by_decide.
  - apply (C (py "12345")).
    + vm_compute. reflexivity.
    + vm_compute. reflexivity.
    + right. vm_compute. reflexivity.
    + left. vm_compute. reflexivity.
Defined.

(** X15. A call with a 7-byte tweak is the call with the 8-byte tweak made
    of the two halves the split computes: if the split of the 7 bytes
    returns [(Tl, Tr)], then encrypting and decrypting under the 7 bytes
    returns what encrypting and decrypting under the 8 bytes [Tl ++ Tr]
    returns, error or string. *)
Theorem X15_tweak56_as_tweak64 (AES_ECB_encrypt : bytes -> bytes -> bytes)
    (self : FF3Cipher.t) (tweak56 tweak64 : str) (tweakBytes Tl Tr : bytes)
    (s : str) :
  fromhex tweak56 = Ok tweakBytes ->
  len tweakBytes = 7 ->
  FF3Cipher.tweak_halves tweakBytes = Ok (Tl, Tr) ->
  fromhex tweak64 = Ok (Tl ++ Tr) ->
  FF3Cipher.encrypt_with_tweak AES_ECB_encrypt self s tweak56
  = FF3Cipher.encrypt_with_tweak AES_ECB_encrypt self s tweak64
  /\ FF3Cipher.decrypt_with_tweak AES_ECB_encrypt self s tweak56
     = FF3Cipher.decrypt_with_tweak AES_ECB_encrypt self s tweak64.
Proof.
  intros H56 H7 Hsplit H64.
  destruct (tweak_halves_Ok tweakBytes) as (Tl' & Tr' & HT & _ & HlTl & _ & HlTr).
  { by apply (fromhex_is_bytes tweak56). }
  { unfold len in H7. lia. }
  rewrite Hsplit in HT. injection HT as <- <-.
  assert (len (Tl ++ Tr) = 8) as H8 by (rewrite len_app; unfold len; lia).
  assert (FF3Cipher.tweak_halves (Tl ++ Tr) = Ok (Tl, Tr)) as Hsplit'.
  { unfold FF3Cipher.tweak_halves. rewrite H8.
    change (8 =? TWEAK_LEN) with true. cbv iota zeta.
    change (Z.to_nat HALF_TWEAK_LEN) with 4%nat. rewrite <- HlTl.
    by rewrite take_app_length, drop_app_length. }
  unfold FF3Cipher.encrypt_with_tweak, FF3Cipher.decrypt_with_tweak.
  rewrite H56, H64, !bind_ret. cbv zeta.
  rewrite H7, H8, Hsplit, Hsplit'. done.
Qed.

Lemma X15_tweak56_as_tweak64_witness :
  FF3Cipher.encrypt_with_tweak sample_cipher sample_instance sample_plaintext
    sample_tweak56
  = FF3Cipher.encrypt_with_tweak sample_cipher sample_instance sample_plaintext
      (py "D8E792000FA330A0")
  /\ FF3Cipher.decrypt_with_tweak sample_cipher sample_instance sample_plaintext
       sample_tweak56
     = FF3Cipher.decrypt_with_tweak sample_cipher sample_instance
         sample_plaintext (py "D8E792000FA330A0").
Proof.
  apply (X15_tweak56_as_tweak64 sample_cipher sample_instance sample_tweak56
           (py "D8E792000FA330A0") [0xD8; 0xE7; 0x92; 0x0A; 0xFA; 0x33; 0x0A]
           [0xD8; 0xE7; 0x92; 0x00] [0x0F; 0xA3; 0x30; 0xA0]).
  - vm_compute. reflexivity.
  - vm_compute. reflexivity.
  - vm_compute. reflexivity.
  - vm_compute. reflexivity.
Defined.

(** X16. Every instance the constructor returns keeps the invariants of
    the data model: the radix is in [2, 65536] and is the length of the
    alphabet; [2 <= minLen <= maxLen] with [radix ^ minLen >= 1000000];
    the key is the hexadecimal text of 16, 24 or 32 bytes and the AES key
    is those bytes reversed; the tweak is stored as given. *)
Theorem X16_instance_invariants (key tweak : str) (radix : option Z)
    (alphabet : option str) (self : FF3Cipher.t) :
  FF3Cipher.__init__ key tweak radix alphabet = Ok self ->
  2 <= self.(FF3Cipher.radix) <= 65536
  /\ len self.(FF3Cipher.alphabet) = self.(FF3Cipher.radix)
  /\ 2 <= self.(FF3Cipher.minLen) <= self.(FF3Cipher.maxLen)
  /\ self.(FF3Cipher.radix) ^ self.(FF3Cipher.minLen) >= 1000000
  /\ self.(FF3Cipher.tweak) = tweak
  /\ exists keybytes,
       fromhex key = Ok keybytes
       /\ (len keybytes = 16 \/ len keybytes = 24 \/ len keybytes = 32)
       /\ self.(FF3Cipher.aesCipher) = reverse keybytes
       /\ is_bytes self.(FF3Cipher.aesCipher).
Proof.
  intros Hinit.
  destruct (init_Ok _ _ _ _ _ Hinit) as (Htw & Hv & Hmm).
  destruct (validate_Ok _ _ _ _ Hv) as [Hr Ha].
  pose proof (length_bounds_all (FF3Cipher.radix self) Hr) as Hb.
  rewrite Hmm in Hb. destruct Hb as (Hmin & _ & Hle & Hdom & _).
  unfold MAX_RADIX in Hr. change (2 ^ 16) with 65536 in Hr.
  split_and!; try done; try lia.
  unfold FF3Cipher.__init__ in Hinit.
  apply bind_Ok in Hinit as ([r a] & _ & Hinit).
  apply bind_Ok in Hinit as (keybytes & Hk & Hinit).
  destruct (minlen_and_maxlen r) as [mn mx]. cbv zeta in Hinit.
  case_if; [discriminate|]. injection Hinit as <-. cbn [FF3Cipher.aesCipher].
  exists keybytes. zbool. split_and!; try done.
  - repeat match goal with H : _ \/ _ |- _ => destruct H end; zbool; lia.
  - apply Forall_reverse. by apply (fromhex_is_bytes key).
Qed.

Lemma X16_instance_invariants_witness :
  2 <= sample_instance.(FF3Cipher.radix) <= 65536
  /\ len sample_instance.(FF3Cipher.alphabet) = sample_instance.(FF3Cipher.radix)
  /\ 2 <= sample_instance.(FF3Cipher.minLen) <= sample_instance.(FF3Cipher.maxLen)
  /\ sample_instance.(FF3Cipher.radix) ^ sample_instance.(FF3Cipher.minLen)
     >= 1000000
  /\ sample_instance.(FF3Cipher.tweak) = sample_tweak
  /\ exists keybytes,
       fromhex sample_key = Ok keybytes
       /\ (len keybytes = 16 \/ len keybytes = 24 \/ len keybytes = 32)
       /\ sample_instance.(FF3Cipher.aesCipher) = reverse keybytes
       /\ is_bytes sample_instance.(FF3Cipher.aesCipher).
Proof.
  apply (X16_instance_invariants sample_key sample_tweak None None).
  vm_compute. reflexivity.
Defined.
